(** * cert-manage: whitelist resolver, whitelist loader, trust store,
      directory mirroring and the confirmation server's port picker

    A shallow embedding of the Go sources

    - [whitelist/whitelist.go]  ([findRemovable], [loadFromFile],
      [validWhitelistPath]) and the Windows store that follows it in the same
      file ([windowsStore]),
    - [tools/file/file.go]      ([Exists], [MirrorDir], [CopyFile]),
    - the confirmation server   ([getPort]),

    together with the properties the specification states about them. *)

From Stdlib Require Import ZArith Lia Ascii.
From stdpp Require Import base option list strings gmap pretty.

Local Open Scope Z_scope.

(** ** Go basics *)

Module Go.

(** Go's [int] on the supported platforms is a 64-bit two's complement
    integer; arithmetic wraps around silently. *)
Definition int_min : Z := - 2 ^ 63.
Definition int_max : Z := 2 ^ 63 - 1.
Definition wrap (z : Z) : Z := (z + 2 ^ 63) mod 2 ^ 64 - 2 ^ 63.
Definition int_add (a b : Z) : Z := wrap (a + b).
Definition int_sub (a b : Z) : Z := wrap (a - b).

(** [syscall.Errno], as far as the file system model raises them. *)
Inductive Errno := ENOENT | ENOTDIR | EEXIST | EISDIR | EINVAL.

(** The dynamic types an [error] of this program can have; [nil] is
    [None]. *)
Inductive GoError :=
| PathError (op path : string) (errno : Errno)        (* *os.PathError *)
| LinkError (op old new : string) (errno : Errno)     (* *os.LinkError *)
| Errorf (msg : string)                               (* fmt.Errorf *)
| UnmarshalError (msg : string).                      (* encoding/json *)

Definition error := option GoError.

(** A Go result pair [(v, err)] of which only one side is meaningful. *)
Inductive result (A : Type) :=
| Ok (a : A)
| Err (e : GoError).
Global Arguments Ok {A} a.
Global Arguments Err {A} e.

(** The error side of a result pair. *)
Definition err_of {A} (r : result A) : error :=
  match r with
  | Ok _ => None
  | Err e => Some e
  end.

(** [err != nil]. *)
Definition is_Some_b {A} (o : option A) : bool :=
  match o with
  | Some _ => true
  | None => false
  end.

(** [os.IsNotExist]. *)
Definition IsNotExist (e : GoError) : bool :=
  match e with
  | PathError _ _ ENOENT | LinkError _ _ _ ENOENT => true
  | _ => false
  end.

(** [strings.HasPrefix s prefix]. *)
Definition HasPrefix (s prefix : string) : bool := String.prefix prefix s.

(** [strings.Contains s substr]. *)
Fixpoint Contains (s substr : string) : bool :=
  HasPrefix s substr ||
  match s with
  | String _ s' => Contains s' substr
  | EmptyString => false
  end.

(** [strings.ToLower], on the letters of ASCII. *)
Definition lower (c : ascii) : ascii :=
  let n := N_of_ascii c in
  if ((65 <=? n) && (n <=? 90))%N then ascii_of_N (n + 32) else c.

Fixpoint ToLower (s : string) : string :=
  match s with
  | String c s' => String (lower c) (ToLower s')
  | EmptyString => EmptyString
  end.

(** The text [err.Error()] prints. *)
Definition errno_text (e : Errno) : string :=
  match e with
  | ENOENT => "no such file or directory"
  | ENOTDIR => "not a directory"
  | EEXIST => "file exists"
  | EISDIR => "is a directory"
  | EINVAL => "invalid argument"
  end.

Definition Error (e : GoError) : string :=
  match e with
  | PathError op path errno => op +:+ " " +:+ path +:+ ": " +:+ errno_text errno
  | LinkError op old new errno =>
      op +:+ " " +:+ old +:+ " " +:+ new +:+ ": " +:+ errno_text errno
  | Errorf msg => msg
  | UnmarshalError msg => msg
  end.

(** The line feed that ends a printed line. *)
Definition nl : string := String (ascii_of_N 10) EmptyString.

(** [strings.TrimSpace], on the white space of ASCII. *)
Fixpoint TrimLeft (s : string) : string :=
  match s with
  | String c s' => if Ascii.is_space c then TrimLeft s' else s
  | EmptyString => EmptyString
  end.
Definition TrimSpace (s : string) : string :=
  String.rev (TrimLeft (String.rev (TrimLeft s))).

(** A [for _, x := range xs] loop whose body may [return err]: the first
    non-nil error leaves the loop with the state reached so far; [None] is a
    body that did not come back (no fuel left). *)
Fixpoint for_range {A St : Type} (body : A -> St -> option (St * error))
    (xs : list A) (st : St) : option (St * error) :=
  match xs with
  | [] => Some (st, None)
  | x :: xs' =>
      match body x st with
      | None => None
      | Some (st', Some e) => Some (st', Some e)
      | Some (st', None) => for_range body xs' st'
      end
  end.

End Go.

(** ** Paths: [path/filepath] on slash-separated paths *)

Module Filepath.

(** [strings.Split s "/"]. *)
Fixpoint Split (s : string) : list string :=
  match s with
  | EmptyString => [EmptyString]
  | String c s' =>
      if Ascii.eqb c "/"%char then EmptyString :: Split s'
      else match Split s' with
           | x :: xs => String c x :: xs
           | [] => [String c EmptyString]
           end
  end.

(** The lexical walk of [Clean] over the elements of a path: empty elements
    and [.] are dropped; [..] removes the element before it, disappears at
    the root of a rooted path and stays at the start of a relative one.
    [acc] holds the elements kept so far, last one first. *)
Fixpoint clean_elems (rooted : bool) (acc elems : list string) : list string :=
  match elems with
  | [] => rev acc
  | e :: elems' =>
      if bool_decide (e = "") || bool_decide (e = ".") then
        clean_elems rooted acc elems'
      else if bool_decide (e = "..") then
        match acc with
        | a :: acc' =>
            if bool_decide (a = "..") then clean_elems rooted (e :: acc) elems'
            else clean_elems rooted acc' elems'
        | [] =>
            if rooted then clean_elems rooted [] elems'
            else clean_elems rooted [e] elems'
        end
      else clean_elems rooted (e :: acc) elems'
  end.

Fixpoint join_elems (elems : list string) : string :=
  match elems with
  | [] => ""
  | [e] => e
  | e :: elems' => e +:+ "/" +:+ join_elems elems'
  end.

Definition IsAbs (p : string) : bool := Go.HasPrefix p "/".

(** [filepath.Clean]. *)
Definition Clean (p : string) : string :=
  let elems := clean_elems (IsAbs p) [] (Split p) in
  if IsAbs p then "/" +:+ join_elems elems
  else match elems with
       | [] => "."
       | _ => join_elems elems
       end.

(** [filepath.Join a b]: empty elements are ignored, the rest is joined by
    the separator and cleaned. *)
Definition Join (a b : string) : string :=
  match filter (fun e => e ≠ "") [a; b] with
  | [] => ""
  | elems => Clean (join_elems elems)
  end.

(** [filepath.Abs]: the working directory of the process is the root
    directory, so that [os.Getwd] cannot fail. *)
Definition Abs (p : string) : string * Go.error :=
  (if IsAbs p then Clean p else Join "/" p, None).

(** Where the operating system finds a path: the elements from the root
    directory down, relative paths starting from the working directory. *)
Definition locate (p : string) : list string :=
  clean_elems true [] (Split p).

End Filepath.

(** ** The operating system: a file tree and the [os] calls on it *)

Module OS.
Import Go Filepath.

(** What a path can name.  Bytes are numbers of [[0, 256)]; [mode] holds the
    permission bits. *)
Inductive node :=
| File (mode : Z) (data : list Z)
| Dir (mode : Z)
| Symlink (target : string).

(** The tree, flat: every node under the path [locate] gives it.  The root
    directory is always there and is no key of the map. *)
Abbreviation FS := (gmap (list string) node).

(** [os.FileMode]: the type bits above the permission bits. *)
Definition ModeDir : Z := Z.shiftl 1 31.
Definition ModeSymlink : Z := Z.shiftl 1 27.
Definition ModePerm : Z := 511.           (* 0777 *)

Record FileInfo := mkFileInfo { Name : string; Mode : Z }.

Definition IsDir (fi : FileInfo) : bool :=
  negb (Z.land (Mode fi) ModeDir =? 0).

Definition mode_of (n : node) : Z :=
  match n with
  | File m _ => Z.land m ModePerm
  | Dir m => Z.lor ModeDir (Z.land m ModePerm)
  | Symlink _ => Z.lor ModeSymlink ModePerm
  end.

Definition node_at (fs : FS) (p : list string) : option node :=
  match p with
  | [] => Some (Dir 493)                  (* the root directory, 0755 *)
  | _ => fs !! p
  end.

(** Walking down from the directory [cur] along [rest]: every element but
    the last must be a directory.  The model does not resolve links: their
    targets lie outside the tree, so a link on the way is a dangling one. *)
Fixpoint walk (fs : FS) (cur rest : list string) : Errno + node :=
  match rest with
  | [] => match node_at fs cur with
          | Some n => inr n
          | None => inl ENOENT
          end
  | e :: rest' =>
      match node_at fs cur with
      | Some (Dir _) => walk fs (cur ++ [e]) rest'
      | Some (File _ _) => inl ENOTDIR
      | Some (Symlink _) | None => inl ENOENT
      end
  end.

(** What a name leads to; the empty name leads nowhere. *)
Definition find (fs : FS) (name : string) : Errno + node :=
  if bool_decide (name = "") then inl ENOENT else walk fs [] (locate name).

Definition base (p : string) : string := List.last (locate p) "/".

(** [os.Lstat]. *)
Definition Lstat (name : string) (fs : FS) : result FileInfo :=
  match find fs name with
  | inr n => Ok (mkFileInfo (base name) (mode_of n))
  | inl errno => Err (PathError "lstat" name errno)
  end.

(** [os.Stat]: as [Lstat], but through a final link. *)
Definition Stat (name : string) (fs : FS) : result FileInfo :=
  match find fs name with
  | inr (Symlink _) => Err (PathError "stat" name ENOENT)
  | inr n => Ok (mkFileInfo (base name) (mode_of n))
  | inl errno => Err (PathError "stat" name errno)
  end.

(** What stands in the way of a new entry called [name], if anything: the
    entry itself, or its parent directory. *)
Definition creatable (fs : FS) (name : string) : option Errno :=
  match find fs name with
  | inr _ => Some EEXIST
  | inl _ =>
      if bool_decide (name = "") then Some ENOENT
      else
        match walk fs [] (removelast (locate name)) with
        | inr (Dir _) => None
        | inr (File _ _) => Some ENOTDIR
        | inr (Symlink _) => Some ENOENT
        | inl errno => Some errno
        end
  end.

(** [os.MkdirAll path perm]: goes down from the root and creates every
    directory of [path] that is missing; a file on the way is an error,
    an existing directory is not. *)
Fixpoint mkdir_down (perm : Z) (cur rest : list string) (fs : FS)
  : FS * option Errno :=
  match rest with
  | [] => (fs, None)
  | e :: rest' =>
      let p := cur ++ [e] in
      match fs !! p with
      | Some (Dir _) => mkdir_down perm p rest' fs
      | Some (File _ _) => (fs, Some ENOTDIR)
      | Some (Symlink _) => (fs, Some EEXIST)
      | None => mkdir_down perm p rest' (<[p := Dir (Z.land perm ModePerm)]> fs)
      end
  end.

Definition MkdirAll (path : string) (perm : Z) (fs : FS) : FS * error :=
  if bool_decide (path = "") then (fs, Some (PathError "mkdir" path ENOENT))
  else
    let '(fs', r) := mkdir_down perm [] (locate path) fs in
    (fs', PathError "mkdir" path <$> r).

Fixpoint child_name (dir p : list string) : option string :=
  match dir, p with
  | [], [name] => Some name
  | d :: dir', e :: p' => if bool_decide (d = e) then child_name dir' p' else None
  | _, _ => None
  end.

Fixpoint insert_by_name (fi : FileInfo) (l : list FileInfo) : list FileInfo :=
  match l with
  | [] => [fi]
  | x :: l' =>
      if String.leb (Name fi) (Name x) then fi :: l
      else x :: insert_by_name fi l'
  end.

Definition entries (fs : FS) (dir : list string) : list FileInfo :=
  foldr insert_by_name []
    (omap (fun '(p, n) => name ← child_name dir p; Some (mkFileInfo name (mode_of n)))
          (map_to_list fs)).

(** [ioutil.ReadDir]: the [Lstat] of every entry, sorted by file name. *)
Definition ReadDir (dirname : string) (fs : FS) : result (list FileInfo) :=
  match find fs dirname with
  | inr (Dir _) => Ok (entries fs (locate dirname))
  | inr (File _ _) => Err (PathError "readdirent" dirname ENOTDIR)
  | inr (Symlink _) => Err (PathError "open" dirname ENOENT)
  | inl errno => Err (PathError "open" dirname errno)
  end.

(** [os.Readlink]. *)
Definition Readlink (name : string) (fs : FS) : result string :=
  match find fs name with
  | inr (Symlink target) => Ok target
  | inr _ => Err (PathError "readlink" name EINVAL)
  | inl errno => Err (PathError "readlink" name errno)
  end.

(** [os.Symlink oldname newname]. *)
Definition Symlink_ (oldname newname : string) (fs : FS) : FS * error :=
  match creatable fs newname with
  | Some errno => (fs, Some (LinkError "symlink" oldname newname errno))
  | None => (<[locate newname := Symlink oldname]> fs, None)
  end.

(** [os.Open]: the open file is the place it was found at; also a directory
    can be opened. *)
Definition Open (name : string) (fs : FS) : result (list string) :=
  match find fs name with
  | inr (Symlink _) => Err (PathError "open" name ENOENT)
  | inr _ => Ok (locate name)
  | inl errno => Err (PathError "open" name errno)
  end.

(** [os.Create]: an existing file is truncated and keeps its mode, a new one
    gets [0666]. *)
Definition Create (name : string) (fs : FS) : FS * result (list string) :=
  let p := locate name in
  match find fs name with
  | inr (File m _) => (<[p := File m []]> fs, Ok p)
  | inr (Dir _) => (fs, Err (PathError "open" name EISDIR))
  | inr (Symlink _) => (fs, Err (PathError "open" name ENOENT))
  | inl _ =>
      match creatable fs name with
      | Some errno => (fs, Err (PathError "open" name errno))
      | None => (<[p := File 438 []]> fs, Ok p)
      end
  end.

(** [io.Copy out in] on two files that were just opened: everything [in]
    holds now is written over the start of [out]; reading a directory
    fails. *)
Definition Copy (out in_ : list string) (fs : FS) : FS * error :=
  match node_at fs in_, node_at fs out with
  | Some (File _ data), Some (File m old) =>
      (<[out := File m (data ++ drop (length data) old)]> fs, None)
  | Some (Dir _), _ => (fs, Some (PathError "read" (join_elems in_) EISDIR))
  | _, _ => (fs, Some (PathError "write" (join_elems out) EINVAL))
  end.

(** [ioutil.ReadFile]: [Open], then read to the end. *)
Definition ReadFile (filename : string) (fs : FS) : result (list Z) :=
  match Open filename fs with
  | Err err => Err err
  | Ok f =>
      match node_at fs f with
      | Some (File _ data) => Ok data
      | _ => Err (PathError "read" filename EISDIR)
      end
  end.

(** [os.Chmod]. *)
Definition Chmod (name : string) (mode : Z) (fs : FS) : FS * error :=
  let p := locate name in
  match find fs name, p with
  | inr (File _ data), _ :: _ => (<[p := File (Z.land mode ModePerm) data]> fs, None)
  | inr (Dir _), _ :: _ => (<[p := Dir (Z.land mode ModePerm)]> fs, None)
  | inr (Dir _), [] => (fs, None)
  | inr _, _ => (fs, Some (PathError "chmod" name ENOENT))
  | inl errno, _ => (fs, Some (PathError "chmod" name errno))
  end.

End OS.

(** ** [tools/file]: [Exists], [MirrorDir], [CopyFile] *)

Module File.
Import Go Filepath OS.

(** [Exists]. *)
Definition Exists (path : string) (fs : FS) : bool :=
  let '(path, err) := Abs (TrimSpace path) in
  match err with
  | Some _ => false
  | None =>
      match Stat path fs with
      | Ok _ => true
      | Err _ => false
      end
  end.

(** [CopyFile]; the deferred [Close] calls and [out.Sync] change nothing in
    the tree and do not fail in it. *)
Definition CopyFile (src dst : string) (fs : FS) : FS * error :=
  match Open src fs with
  | Err err => (fs, Some err)
  | Ok in_ =>
      match Create dst fs with
      | (fs, Err err) => (fs, Some err)
      | (fs, Ok out) =>
          (* contents *)
          match Copy out in_ fs with
          | (fs, Some err) => (fs, Some err)
          | (fs, None) =>
              (* perms *)
              match Stat src fs with
              | Err err => (fs, Some err)
              | Ok s =>
                  match Chmod dst (Mode s) fs with
                  | (fs, Some err) => (fs, Some err)
                  | (fs, None) => (fs, None)
                  end
              end
          end
      end
  end.

(** The body of the loop of [MirrorDir], for the entry [item] of [src];
    [mirror] is the recursive call. *)
Definition mirrorItem (mirror : string -> string -> FS -> option (FS * error))
    (src dst : string) (item : FileInfo) (fs : FS) : option (FS * error) :=
  let s := Join src (Name item) in
  let d := Join dst (Name item) in
  if IsDir item then
    mirror s d fs
  else if negb (Z.land (Mode item) ModeSymlink =? 0) then
    match Readlink s fs with
    | Err err => Some (fs, Some err)
    | Ok final => Some (Symlink_ final d fs)
    end
  else
    Some (CopyFile s d fs).

(** [MirrorDir].  The function calls itself on every sub-directory, which
    need not end (when [dst] lies under [src], each call finds the directory
    the call before it made): [fuel] bounds the depth of the calls, and
    [None] is a run that needed more.  The error of [os.MkdirAll] is
    assigned to [err] and overwritten by [ioutil.ReadDir] before anything
    reads it. *)
Fixpoint MirrorDir (fuel : nat) (src dst : string) (fs : FS)
  : option (FS * error) :=
  match fuel with
  | O => None
  | S fuel' =>
      let src := Clean src in
      let dst := Clean dst in
      (* Exit early if `src` isn't a directory *)
      match Stat src fs with
      | Err err => Some (fs, Some err)
      | Ok s =>
          if negb (IsDir s) then
            Some (fs, Some (Errorf (src +:+ " is not a directory")))
          else
            (* Make `dst` *)
            let err := err_of (Stat dst fs) in
            if is_Some_b err && negb (from_option IsNotExist false err) then
              Some (fs, err) (* some fs error occurred *)
            else
              let '(fs, err) := MkdirAll dst (Mode s) fs in
              (* copy files, symlinks, and dirs *)
              match ReadDir src fs with
              | Err err => Some (fs, Some err)
              | Ok items =>
                  for_range (mirrorItem (MirrorDir fuel') src dst) items fs
              end
      end
  end.

End File.

(** ** The confirmation server: [getPort] *)

Module Server.
Import Go.

(** [math/rand.Intn n] panics when [n <= 0] and otherwise returns a number of
    the half-open interval [[0, n)].  The generator's state is outside the
    program: [raw] is the non-reduced number the generator delivers for this
    call, and [None] stands for the panic. *)
Definition rand_Intn (raw n : Z) : option Z :=
  if n <=? 0 then None else Some (raw mod n).

(** [getPort]: [seed.Do] only chooses the generator's state, that is [raw]. *)
Definition getPort (raw : Z) : option Z :=
  let lowerBound := 1024 in
  n ← rand_Intn raw (int_sub (Z.shiftl 2 15) lowerBound);
  Some (int_add n lowerBound).

End Server.

(** ** Certificates and whitelist items *)

(** The fields of [x509.Certificate] that the whitelist looks at, with the
    hexadecimal fingerprint derived from [Raw]. *)
Record Certificate := mkCertificate {
  Raw : list Z;                 (* DER bytes, each in [0, 256) *)
  Fingerprint : string;         (* hex of the digest of [Raw] *)
  IssuerCommonName : string;    (* Issuer.CommonName *)
  SubjectCommonName : string;   (* Subject.CommonName *)
  SerialNumber : Z
}.

(** [type Item interface { Matches(x509.Certificate) bool }]: an interface
    value is the method it carries.  [Matches] gets a copy of the certificate
    and answers without a panic; the items of a whitelist are not nil. *)
Record Item := mkItem { Matches : Certificate -> bool }.

(** A [*x509.Certificate]: [None] is the nil pointer, [Some c] points at [c]. *)
Definition CertPtr := option Certificate.

(** *** The two kinds of items *)

Module Items.
Import Go.

(** Modelled from the spec: the [Matches] method of the fingerprint item
    ([HexSignatureWhitelistItem] in the tests of package [certs],
    [fingerprint] in [loadFromFile]) is missing from the sources at hand.
    The item matches when the fingerprint of the certificate, lower-cased,
    starts with the signature; fingerprint strings are case-insensitive hex,
    and the empty signature never matches. *)
Definition HexSignature_Matches (Signature : string) (c : Certificate) : bool :=
  negb (String.eqb Signature "") &&
  HasPrefix (ToLower (Fingerprint c)) (ToLower Signature).

Definition HexSignatureWhitelistItem (Signature : string) : Item :=
  mkItem (HexSignature_Matches Signature).

Definition fingerprint (Signature : string) : Item :=
  HexSignatureWhitelistItem Signature.

(** Modelled from the spec: the [Matches] method of the issuer item
    ([IssuersCommonNameWhitelistItem] in the tests of package [certs]) is
    missing from the sources at hand.  The item matches when the issuer
    common name of the certificate contains the name as a case-sensitive
    substring; the empty name never matches. *)
Definition IssuersCommonName_Matches (Name : string) (c : Certificate) : bool :=
  negb (String.eqb Name "") &&
  Contains (IssuerCommonName c) Name.

Definition IssuersCommonNameWhitelistItem (Name : string) : Item :=
  mkItem (IssuersCommonName_Matches Name).

End Items.

Module Whitelist.
Import Go OS.

(** The condition of the inner [if]: [inc != nil && wh.Matches( *inc )];
    [&&] does not evaluate its right operand on a nil pointer. *)
Definition matched (inc : CertPtr) (wh : Item) : bool :=
  match inc with
  | None => false
  | Some c => Matches wh c
  end.

(** The inner loop: [remove] starts as [true] and is cleared by every
    matching item; the loop does not stop at the first match. *)
Definition scan (whitelisted : list Item) (inc : CertPtr) : bool :=
  fold_left (fun remove wh => if matched inc wh then false else remove)
            whitelisted true.

(** [findRemovable]: [removable] starts as the nil slice and grows by
    [append] at its end. *)
Definition findRemovable (incoming : list CertPtr) (whitelisted : list Item)
  : list CertPtr :=
  fold_left (fun removable inc =>
               if scan whitelisted inc then removable ++ [inc] else removable)
            incoming [].

(** Json structure in struct form *)
Record jsonSignatures := mkJsonSignatures { Hex : list string }.
Record jsonWhitelist := mkJsonWhitelist { Signatures : jsonSignatures }.

(** [validWhitelistPath], with the lines it prints. *)
Definition validWhitelistPath (path : string) (fs : FS) : list string * bool :=
  let out :=
    if negb (File.Exists path fs) then
      ["The path " +:+ path +:+ " doesn't seem to exist." +:+ nl]
    else [] in
  let isFlag := HasPrefix path "-" in
  if (String.length path =? 0)%nat || isFlag then
    let out :=
      out ++ ["The given whitelist file path '" +:+ path +:+ "' doesn't look correct." +:+ nl] in
    let out :=
      if isFlag then
        out ++ ["The path looks like a cli flag, -whitelist requires a path to the whitelist file." +:+ nl]
      else
        out ++ ["The given whitelist file path is empty." +:+ nl] in
    (out, false)
  else
    (out, true).

Section Loader.

(** [json.Unmarshal] into a [jsonWhitelist]; the decoder belongs to Go's
    library. *)
Variable json_Unmarshal : list Z -> result jsonWhitelist.

(** [loadFromFile] reads a whitelist file and parses it into Items; the
    first component is what was printed. *)
Definition loadFromFile (path : string) (fs : FS)
  : list string * (list Item * error) :=
  let '(out, valid) := validWhitelistPath path fs in
  if negb valid then
    (out, ([], Some (Errorf ("The path '" +:+ path +:+ "' doesn't seem to contain a whitelist."))))
  else
    (* read file *)
    match ReadFile path fs with
    | Err err => (out, ([], Some err))
    | Ok b =>
        match json_Unmarshal b with
        | Err err => (out, ([], Some err))
        | Ok parsed =>
            (* Read parsed format into structs *)
            let items :=
              fold_left (fun items s => items ++ [Items.fingerprint s])
                        (Hex (Signatures parsed)) [] in
            (out, (items, None))
        end
    end.

End Loader.

End Whitelist.

(** ** [findRemovable] on slices in memory *)

Module Memory.
Import Whitelist.

(** The backing arrays of the [[]*x509.Certificate] slices, in the order
    they were allocated; an address is a position in this list. *)
Abbreviation heap := (list (list CertPtr)).

(** A slice value: the array it views (none for the nil slice), where the
    view starts, its length and its capacity. *)
Record slice := mkSlice {
  array : option nat;
  offset : nat;
  len : nat;
  cap : nat
}.

Definition nil_slice : slice := mkSlice None 0 0 0.

(** The elements a slice views. *)
Definition elements (h : heap) (s : slice) : list CertPtr :=
  match array s with
  | Some a => take (len s) (drop (offset s) (default [] (h !! a)))
  | None => []
  end.

(** [s[i]], read from the backing array; [None] is the panic of an index out
    of range, which [range] never causes on a valid slice. *)
Definition index (h : heap) (s : slice) (i : nat) : option CertPtr :=
  if (i <? len s)%nat then
    a ← array s; arr ← h !! a; arr !! (offset s + i)%nat
  else None.

(** The slice views allocated memory. *)
Definition valid (h : heap) (s : slice) : Prop :=
  (len s <= cap s)%nat /\
  match array s with
  | Some a =>
      exists arr, h !! a = Some arr /\ (offset s + cap s <= length arr)%nat
  | None => cap s = 0%nat
  end.

Section Append.

(** The capacity the runtime chooses when a slice of capacity [cap] has to
    grow to hold [n] elements. *)
Variable growslice : nat -> nat -> nat.

(** [append s x]: with room left in the backing array the element is
    written in place, behind the last one; without room a new array is
    allocated, and the elements are copied into it. *)
Definition append (s : slice) (x : CertPtr) (h : heap) : slice * heap :=
  match array s with
  | Some a =>
      if (len s <? cap s)%nat then
        (mkSlice (Some a) (offset s) (S (len s)) (cap s),
         alter (fun arr => <[(offset s + len s)%nat := x]> arr) a h)
      else
        let c := growslice (cap s) (S (len s)) in
        (mkSlice (Some (length h)) 0 (S (len s)) c,
         h ++ [elements h s ++ x :: replicate (c - S (len s)) None])
  | None =>
      let c := growslice 0 1 in
      (mkSlice (Some (length h)) 0 1 c,
       h ++ [x :: replicate (c - 1) None])
  end.

(** One round of the outer loop of [findRemovable], for the index [i]. *)
Definition round (incoming : slice) (whitelisted : list Item)
    (st : slice * heap) (i : nat) : slice * heap :=
  let '(removable, h) := st in
  match index h incoming i with
  | Some inc =>
      if scan whitelisted inc then append removable inc h
      else (removable, h)
  | None => (removable, h)
  end.

(** [findRemovable]: [range] fixes the number of rounds when the loop
    starts and reads [incoming[i]] in round [i]; [removable] starts as
    the nil slice. *)
Definition findRemovable (incoming : slice) (whitelisted : list Item)
    (h : heap) : slice * heap :=
  fold_left (round incoming whitelisted) (seq 0 (len incoming))
            (nil_slice, h).

End Append.

End Memory.

(** ** The trust store of Windows *)

Module Store.
Import Go.

(** What the store works on: the certificates the system trusts now, the
    backup record if there is one, the answers of [certmgr] and what the
    process has printed. *)
Record World := mkWorld {
  live : list Certificate;
  backupRecord : option (list Certificate);
  certmgr : string -> string * error;
  stdout : list string
}.

(** [type Store interface]. *)
Record Store := mkStore {
  Backup : World -> World * error;
  List : World -> World * (list CertPtr * error);
  Remove : list Item -> World -> World * error;
  Restore : World -> World * error
}.

Definition print (line : string) (w : World) : World :=
  mkWorld (live w) (backupRecord w) (certmgr w) (stdout w ++ [line]).

(** The loop of [windowsStore.List] over the store names. *)
Definition list_store (w : World) (name : string) : World :=
  let w := print (name +:+ nl) w in
  let '(b, err) := certmgr w name in
  let w :=
    match err with
    | Some e => print ("Error:  " +:+ Error e +:+ nl) w
    | None => w
    end in
  print (b +:+ nl) w.

(** [windowsStore]: [struct{}], nothing is kept between the calls. *)
Definition windowsStore : Store := {|
  Backup w := (w, None);
  List w :=
    let stores := ["My"; "AuthRoot"; "Root"; "Trust"; "CA"; "Disallowed"] in
    (fold_left list_store stores w, ([], None));
  Remove wh w := (w, None);
  Restore w := (w, None)
|}.

(** The calls of one invocation of the program, in order. *)
Inductive Call :=
| CallBackup
| CallList
| CallRemove (wh : list Item)
| CallRestore.

Definition call (s : Store) (c : Call) (w : World) : World * error :=
  match c with
  | CallBackup => Backup s w
  | CallList => let '(w, (_, err)) := List s w in (w, err)
  | CallRemove wh => Remove s wh w
  | CallRestore => Restore s w
  end.

(** The world after a session, and the error of every call. *)
Fixpoint session (s : Store) (calls : list Call) (w : World)
  : World * list error :=
  match calls with
  | [] => (w, [])
  | c :: calls' =>
      let '(w, err) := call s c w in
      let '(w, errs) := session s calls' w in
      (w, err :: errs)
  end.

(** No successful [Backup] among the calls of a session. *)
Fixpoint no_backup (calls : list Call) (errs : list error) : bool :=
  match calls, errs with
  | CallBackup :: calls', None :: errs' => false
  | _ :: calls', _ :: errs' => no_backup calls' errs'
  | _, _ => true
  end.

End Store.

(** ** The confirmation server: [Register] and [Address] *)

Module ServerState.
Import Go Server.

(** The variables of the package and of [net/http] that [Register] and
    [Address] work on: [srv], of which only [Addr] is ever set ([None] is
    the nil pointer), and the patterns registered with the default mux. *)
Record state := mkState {
  srv : option string;
  patterns : list string
}.

(** [fmt.Sprintf] with one [%d]. *)
Definition decimal (n : Z) : string := pretty n.

(** [Address]. *)
Definition Address (st : state) : string :=
  match srv st with
  | None => ""
  | Some addr => "http://" +:+ addr +:+ "/"
  end.

(** [http.HandleFunc]: registering a pattern a second time panics. *)
Definition HandleFunc (pattern : string) (st : state) : option state :=
  if bool_decide (pattern ∈ patterns st) then None
  else Some (mkState (srv st) (pattern :: patterns st)).

(** [Register]; [raw] is what the generator delivers to [getPort], [None] a
    panic. *)
Definition Register (raw : Z) (st : state) : option state :=
  match srv st with
  | Some _ => Some st (* already initialized *)
  | None =>
      port ← getPort raw;
      HandleFunc "/done" (mkState (Some ("127.0.0.1:" +:+ decimal port))
                                  (patterns st))
  end.

End ServerState.

(** ** The container test harness: the commands of a [dockerfile] *)

Module Docker.

(** [strings.Split s sep] for a separator of one character. *)
Fixpoint Split (sep : ascii) (s : string) : list string :=
  match s with
  | EmptyString => [EmptyString]
  | String c s' =>
      if Ascii.eqb c sep then EmptyString :: Split sep s'
      else match Split sep s' with
           | x :: xs => String c x :: xs
           | [] => [String c EmptyString]
           end
  end.

(** [strings.Join elems sep]. *)
Fixpoint Join (elems : list string) (sep : string) : string :=
  match elems with
  | [] => ""
  | [e] => e
  | e :: elems' => e +:+ sep +:+ Join elems' sep
  end.

(** [Cmd], as far as [build] reads it. *)
Record Cmd := mkCmd { command : string; args : list string }.

(** The fields of [dockerfile] the recording functions touch; [once] tells
    whether the embedded [sync.Once] has run. *)
Record dockerfile := mkDockerfile {
  base : string;
  commands : list Cmd;
  tag : string;
  once : bool
}.

Section Harness.

(** [Command], defined in another file of package [test]. *)
Variable Command : string -> list string -> Cmd.

(** [Run]. *)
Definition Run (cmd : string) (args : list string) (d : dockerfile)
  : dockerfile :=
  mkDockerfile (base d) (commands d ++ [Command cmd args]) (tag d) (once d).

(** [RunSplit]; [None] is the panic of [parts[0]] on an empty slice. *)
Definition RunSplit (stmt : string) (d : dockerfile) : option dockerfile :=
  let parts := Split " " stmt in
  match parts with
  | p0 :: rest => Some (Run p0 rest d)
  | [] => None
  end.

(** [ShouldFail]. *)
Definition ShouldFail (cmd : string) (args : list string) (d : dockerfile)
  : dockerfile :=
  let d := Run "set +e" [] d in
  let d := Run cmd args d in
  Run "set -e" [] d.

(** [ExitCode]. *)
Definition ExitCode (code cmd : string) (args : list string) (d : dockerfile)
  : dockerfile :=
  let d := Run "set +e" [] d in
  let d := Run cmd args d in
  let d := Run "code=$?" [] d in
  let d := Run "set -e" [] d in
  Run "echo" ["$code"; "|"; "grep"; code] d.

(** [CertManage]: [d.Do] runs its function on the first call only. *)
Definition CertManage (args : list string) (d : dockerfile) : dockerfile :=
  let d :=
    if once d then d
    else
      let d := Run "chmod" ["+x"; "/bin/cert-manage"] d in
      mkDockerfile (base d) (commands d) (tag d) true in
  Run "/bin/cert-manage" args d.

End Harness.

End Docker.

(** ** Properties *)

Module StringProps.
Import Go.

Lemma append_cons (c : ascii) (s t : string) :
  String c s +:+ t = String c (s +:+ t).
Proof. reflexivity. Qed.

Lemma append_empty (t : string) : EmptyString +:+ t = t.
Proof. reflexivity. Qed.

Lemma HasPrefix_app (s prefix : string) :
  HasPrefix s prefix = true <-> exists rest, s = prefix +:+ rest.
Proof.
  unfold HasPrefix. revert s.
  induction prefix as [|c prefix IH]; intros s; simpl.
  - split; [|by destruct s]. intros _. by exists s.
  - destruct s as [|d s]; simpl.
    + split; [done|]. by intros [rest Hrest].
    + destruct (ascii_dec c d) as [->|Hne].
      * rewrite IH. split; intros [rest Hrest]; exists rest;
          rewrite append_cons in *; congruence.
      * split; [done|]. intros [rest Hrest].
        rewrite append_cons in Hrest. congruence.
Qed.

Lemma Contains_app (s substr : string) :
  Contains s substr = true <-> exists pre post, s = pre +:+ substr +:+ post.
Proof.
  induction s as [|c s IH];
    [change (Contains EmptyString substr)
       with (HasPrefix EmptyString substr || false)
    |change (Contains (String c s) substr)
       with (HasPrefix (String c s) substr || Contains s substr)];
    rewrite orb_true_iff, HasPrefix_app.
  - split.
    + intros [[rest Hrest]|]; [|done]. by exists EmptyString, rest.
    + intros (pre & post & H). left. destruct pre; [by exists post|done].
  - rewrite IH. split.
    + intros [[rest Hrest]|(pre & post & Hs)].
      * by exists EmptyString, rest.
      * exists (String c pre), post. rewrite append_cons. by rewrite Hs.
    + intros (pre & post & H). destruct pre as [|d pre].
      * left. by exists post.
      * right. exists pre, post. rewrite append_cons in H. congruence.
Qed.

Lemma eqb_empty (s : string) : String.eqb s "" = true <-> s = "".
Proof. apply String.eqb_eq. Qed.

End StringProps.

Module ItemsProps.
Import Go Items StringProps.

(** [Signature] is a prefix of the fingerprint [F] when letter case is
    ignored. *)
Definition prefix_fold (Signature F : string) : Prop :=
  exists rest, ToLower F = ToLower Signature +:+ rest.

(** The certificate of [testdata/example.crt], as the tests of package
    [certs] see it. *)
Definition example_crt : Certificate :=
  mkCertificate [48; 130]
    "96940d991419151450d1e75f66218f6f2594e1df4af31a5ad673c9a8746817ce"
    "Starfield Secure Certification Authority"
    "example.com" 1.

(** [TestWhitelist_HexSignature]. *)
Example TestWhitelist_HexSignature :
  Matches (HexSignatureWhitelistItem "") example_crt = false
  /\ Matches (HexSignatureWhitelistItem "96940d99") example_crt = true
  /\ Matches (HexSignatureWhitelistItem
       "96940d991419151450d1e75f66218f6f2594e1df4af31a5ad673c9a8746817ce")
       example_crt = true.
Proof. repeat split; reflexivity. Qed.

(** [TestWhitelist_IssuerCommonName]. *)
Example TestWhitelist_IssuerCommonName :
  Matches (IssuersCommonNameWhitelistItem "") example_crt = false
  /\ Matches (IssuersCommonNameWhitelistItem "Starfield") example_crt = true
  /\ Matches (IssuersCommonNameWhitelistItem
       "Starfield Secure Certification Authority") example_crt = true.
Proof. repeat split; reflexivity. Qed.

(** C4: a fingerprint item whose signature is a non-empty prefix of the
    fingerprint of a certificate, letter case ignored, matches the
    certificate; the item with the empty signature matches no certificate. *)
Theorem fingerprint_prefix_matches (c : Certificate) (Signature : string) :
  Signature <> "" -> prefix_fold Signature (Fingerprint c) ->
  Matches (HexSignatureWhitelistItem Signature) c = true
  /\ Matches (HexSignatureWhitelistItem "") c = false.
Proof.
  intros Hne Hpre. split; [|reflexivity].
  simpl. unfold HexSignature_Matches.
  apply andb_true_iff. split.
  - apply negb_true_iff. destruct (String.eqb Signature "") eqn:E; [|done].
    by apply eqb_empty in E.
  - by apply HasPrefix_app.
Qed.

Lemma fingerprint_prefix_matches_witness :
  Matches (HexSignatureWhitelistItem "96940D99") example_crt = true
  /\ Matches (HexSignatureWhitelistItem "") example_crt = false.
Proof.
  apply (fingerprint_prefix_matches example_crt "96940D99").
  - discriminate.
  - exists "1419151450d1e75f66218f6f2594e1df4af31a5ad673c9a8746817ce".
    reflexivity.
Defined.

(** C5: an issuer item matches a certificate if and only if its name is not
    empty and occurs, letter for letter, in the issuer common name of the
    certificate; the item with the empty name matches no certificate. *)
Theorem issuer_substring_matches (c : Certificate) (Name : string) :
  (Matches (IssuersCommonNameWhitelistItem Name) c = true <->
   Name <> "" /\ exists pre post, IssuerCommonName c = pre +:+ Name +:+ post)
  /\ Matches (IssuersCommonNameWhitelistItem "") c = false.
Proof.
  split; [|reflexivity].
  simpl. unfold IssuersCommonName_Matches.
  rewrite andb_true_iff, negb_true_iff, Contains_app.
  split; intros [Hne Hsub]; (split; [|done]).
  - intros ->. discriminate.
  - destruct (String.eqb Name "") eqn:E; [|done]. by apply eqb_empty in E.
Qed.

End ItemsProps.

Module WhitelistProps.
Import Go Whitelist.
Import ItemsProps (example_crt).

(** No item of the whitelist matches the record. *)
Definition unmatched (whitelisted : list Item) (inc : CertPtr) : Prop :=
  Forall (fun wh => matched inc wh = false) whitelisted.

#[local] Instance unmatched_dec whitelisted inc :
  Decision (unmatched whitelisted inc).
Proof. unfold unmatched. apply _. Defined.

Lemma scan_from whitelisted inc (remove : bool) :
  fold_left (fun remove wh => if matched inc wh then false else remove)
            whitelisted remove
  = remove && forallb (fun wh => negb (matched inc wh)) whitelisted.
Proof.
  revert remove.
  induction whitelisted as [|wh whitelisted IH]; intros remove; simpl.
  - by rewrite andb_true_r.
  - rewrite IH. destruct (matched inc wh), remove; simpl; try done.
Qed.

Lemma scan_unmatched whitelisted inc :
  scan whitelisted inc = true <-> unmatched whitelisted inc.
Proof.
  unfold scan, unmatched. rewrite scan_from. simpl.
  rewrite forallb_forall, Forall_forall.
  split; intros H wh Hwh.
  - apply negb_true_iff, H. by apply list_elem_of_In.
  - apply negb_true_iff, H. by apply list_elem_of_In.
Qed.

Lemma findRemovable_from incoming whitelisted removable :
  fold_left (fun removable inc =>
               if scan whitelisted inc then removable ++ [inc] else removable)
            incoming removable
  = removable ++ filter (unmatched whitelisted) incoming.
Proof.
  revert removable.
  induction incoming as [|inc incoming IH]; intros removable; simpl.
  - by rewrite app_nil_r.
  - rewrite IH. destruct (scan whitelisted inc) eqn:Hscan.
    + rewrite filter_cons_True by by apply scan_unmatched.
      by rewrite <- app_assoc.
    + rewrite filter_cons_False; [done|].
      intros Hu. apply scan_unmatched in Hu. congruence.
Qed.

Lemma findRemovable_filter incoming whitelisted :
  findRemovable incoming whitelisted = filter (unmatched whitelisted) incoming.
Proof. unfold findRemovable. by rewrite findRemovable_from. Qed.

Lemma unmatched_nil whitelisted : unmatched whitelisted None.
Proof. unfold unmatched. by apply Forall_forall. Qed.

(** C2, as stated, fails: with an empty whitelist the result keeps the nil
    entries of the snapshot. *)
Lemma findRemovable_keeps_nil_entries :
  findRemovable [None; Some example_crt] []
  <> filter (fun inc => inc <> None) [None; Some example_crt].
Proof. vm_compute. discriminate. Qed.

(** C2 (amended): [findRemovable S W] is exactly the records of [S], in the
    order of [S], that no item of [W] matches, a nil record being matched by
    no item; with an empty whitelist the result is all of [S], nil entries
    included; with an empty snapshot it is empty. *)
Theorem findRemovable_exact (S : list CertPtr) (W : list Item) :
  findRemovable S W = filter (unmatched W) S
  /\ (forall inc, inc ∈ findRemovable S W <->
                  inc ∈ S /\ forall wh, wh ∈ W -> matched inc wh = false)
  /\ findRemovable S [] = S
  /\ findRemovable [] W = [].
Proof.
  split; [apply findRemovable_filter|]. split; [|split].
  - intros inc. rewrite findRemovable_filter, list_elem_of_filter.
    unfold unmatched. rewrite Forall_forall. tauto.
  - rewrite findRemovable_filter.
    induction S as [|inc S IH]; [done|].
    rewrite filter_cons_True by constructor. by rewrite IH.
  - reflexivity.
Qed.

(** C3, as stated, fails: the nil record of a snapshot is part of the
    output, here with a whitelist that matches the only certificate. *)
Lemma findRemovable_returns_nil_record :
  findRemovable [None; Some example_crt] [mkItem (fun _ => true)] = [None].
Proof. reflexivity. Qed.

(** C3 (amended): a nil record is matched by no item, so that every nil
    record of the snapshot is part of the output of [findRemovable], as
    often as the snapshot has it. *)
Theorem findRemovable_nil_record (S : list CertPtr) (W : list Item) :
  None ∈ S ->
  None ∈ findRemovable S W
  /\ filter (fun inc => inc = None) (findRemovable S W)
     = filter (fun inc => inc = None) S.
Proof.
  intros HS. rewrite findRemovable_filter. split.
  - apply list_elem_of_filter. split; [apply unmatched_nil | done].
  - clear HS. induction S as [|inc S IH]; [done|].
    destruct inc as [c|].
    + rewrite (filter_cons_False (fun inc => inc = None) (Some c)) by done.
      destruct (decide (unmatched W (Some c))) as [Hu|Hu].
      * rewrite (filter_cons_True (unmatched W)) by done.
        by rewrite filter_cons_False.
      * by rewrite (filter_cons_False (unmatched W)).
    + rewrite (filter_cons_True (unmatched W)) by apply unmatched_nil.
      rewrite !filter_cons_True by done. f_equal. exact IH.
Qed.

Lemma findRemovable_nil_record_witness :
  None ∈ findRemovable [Some example_crt; None] [mkItem (fun _ => true)]
  /\ filter (fun inc => inc = None)
       (findRemovable [Some example_crt; None] [mkItem (fun _ => true)])
     = filter (fun inc => inc = None) [Some example_crt; None].
Proof.
  apply (findRemovable_nil_record [Some example_crt; None]
           [mkItem (fun _ => true)]).
  apply list_elem_of_further, list_elem_of_here.
Defined.

End WhitelistProps.

Module MemoryProps.
Import Whitelist Memory WhitelistProps.
Import ItemsProps (example_crt).

(** [h'] is [h] with more arrays allocated behind it: no array of [h] has
    been written to. *)
Definition extends (h h' : heap) : Prop := exists ext, h' = h ++ ext.

(** [r] is a valid slice of [h'] whose array, if it has one, was allocated
    after [h]. *)
Definition fresh (h h' : heap) (r : slice) : Prop :=
  valid h' r /\
  match array r with
  | Some a => (length h <= a)%nat
  | None => True
  end.

Lemma extends_refl h : extends h h.
Proof. exists []. by rewrite app_nil_r. Qed.

Lemma extends_lookup h h' (a : nat) :
  extends h h' -> (a < length h)%nat -> h' !! a = h !! a.
Proof. intros [ext ->] Ha. by apply lookup_app_l. Qed.

Lemma elements_length h s : valid h s -> length (elements h s) = len s.
Proof.
  unfold valid, elements. intros [Hlen Harr].
  destruct (array s) as [a|]; simpl.
  - destruct Harr as (arr & -> & Hcap). simpl.
    rewrite length_take, length_drop. lia.
  - lia.
Qed.

Lemma elements_extends h h' s :
  valid h s -> extends h h' -> elements h' s = elements h s.
Proof.
  unfold valid, elements. intros [_ Harr] Hext.
  destruct (array s) as [a|]; [|done].
  destruct Harr as (arr & Ha & _).
  rewrite (extends_lookup h h' a Hext); [done|].
  by eapply lookup_lt_Some.
Qed.

Lemma index_elements h h' s (i : nat) :
  valid h s -> extends h h' -> (i < len s)%nat ->
  index h' s i = elements h s !! i
  /\ is_Some (elements h s !! i).
Proof.
  intros Hv Hext Hi.
  assert (Hsome : is_Some (elements h s !! i)).
  { apply lookup_lt_is_Some. by rewrite elements_length. }
  split; [|done].
  unfold index, elements in *. destruct Hv as [Hlen Harr].
  apply Nat.ltb_lt in Hi as Hi'. rewrite Hi'.
  destruct (array s) as [a|]; simpl in *.
  - destruct Harr as (arr & Ha & Hcap).
    rewrite (extends_lookup h h' a Hext) by by eapply lookup_lt_Some.
    rewrite Ha. simpl.
    rewrite lookup_take_lt by done. by rewrite lookup_drop.
  - by destruct Hsome.
Qed.

Section Append.

Variable growslice : nat -> nat -> nat.
Hypothesis growslice_holds : forall c n, (n <= growslice c n)%nat.

Lemma append_spec h h' r x :
  extends h h' -> fresh h h' r ->
  extends h (append growslice r x h').2
  /\ fresh h (append growslice r x h').2 (append growslice r x h').1
  /\ elements (append growslice r x h').2 (append growslice r x h').1
     = elements h' r ++ [x].
Proof.
  intros [ext ->] [[Hlen Harr] Hfresh]. unfold append.
  destruct (array r) as [a|] eqn:Ha.
  - destruct Harr as (arr & Harr & Hcap).
    destruct (len r <? cap r)%nat eqn:Hroom; simpl.
    + apply Nat.ltb_lt in Hroom.
      rewrite alter_app_r_alt by done.
      split; [by eexists|]. split.
      * split; [|done]. split; [simpl; lia|]. simpl.
        exists (<[(offset r + len r)%nat := x]> arr). split.
        -- rewrite <- alter_app_r_alt by done.
           rewrite list_lookup_alter_eq, Harr. done.
        -- rewrite length_insert. lia.
      * unfold elements. simpl. rewrite Ha.
        rewrite <- alter_app_r_alt by done.
        rewrite list_lookup_alter_eq, Harr. simpl.
        rewrite drop_insert_ge by lia.
        replace (offset r + len r - offset r)%nat with (len r) by lia.
        assert (Hin : (len r < length (drop (offset r) arr))%nat)
          by (rewrite length_drop; lia).
        rewrite (take_S_r _ _ x)
          by (apply list_lookup_insert_eq; done).
        by rewrite take_insert_ge by lia.
    + apply Nat.ltb_ge in Hroom.
      pose proof (growslice_holds (cap r) (S (len r))) as Hg.
      assert (Hel : length (elements (h ++ ext) r) = len r).
      { apply elements_length. split; [done|]. rewrite Ha. eauto. }
      split; [exists (ext ++ [elements (h ++ ext) r ++
                x :: replicate (growslice (cap r) (S (len r)) - S (len r)) None]);
              by rewrite app_assoc|].
      split.
      * split; [|simpl; rewrite length_app; lia].
        split; [simpl; lia|]. simpl. eexists. split.
        -- apply list_lookup_middle. done.
        -- rewrite length_app. simpl. rewrite length_replicate. lia.
      * unfold elements at 1. simpl.
        rewrite list_lookup_middle by done. simpl.
        rewrite drop_0.
        replace (S (len r)) with (len r + 1)%nat by lia.
        by rewrite take_app_add' by done.
  - simpl in *. assert (len r = 0)%nat as Hl by lia.
    pose proof (growslice_holds 0 1) as Hg.
    split; [exists (ext ++ [x :: replicate (growslice 0 1 - 1) None]);
            by rewrite app_assoc|].
    split.
    + split; [|simpl; rewrite length_app; lia].
      split; [simpl; lia|]. simpl. eexists. split.
      * apply list_lookup_middle. done.
      * simpl. rewrite length_replicate. lia.
    + unfold elements. rewrite Ha. simpl.
      by rewrite list_lookup_middle by done.
Qed.

(** The rounds [k], [k+1], ... of the loop, started with what the rounds
    before [k] have collected. *)
Lemma rounds_spec incoming whitelisted h :
  valid h incoming ->
  forall (n k : nat) r h',
    (k + n = len incoming)%nat ->
    extends h h' -> fresh h h' r ->
    elements h' r
      = filter (unmatched whitelisted) (take k (elements h incoming)) ->
    let st := fold_left (round growslice incoming whitelisted)
                        (seq k n) (r, h') in
    extends h st.2 /\ fresh h st.2 st.1
    /\ elements st.2 st.1
       = filter (unmatched whitelisted) (elements h incoming).
Proof.
  intros Hv. induction n as [|n IH]; intros k r h' Hk Hext Hfresh Hel.
  - simpl. split; [done|]. split; [done|].
    rewrite Hel, take_ge; [done|]. rewrite elements_length by done. lia.
  - change (seq k (S n)) with (k :: seq (S k) n).
    cbn [fold_left].
    destruct (index_elements h h' incoming k Hv Hext ltac:(lia))
      as [Hidx [inc Hinc]].
    assert (Hround : round growslice incoming whitelisted (r, h') k
                     = if scan whitelisted inc
                       then append growslice r inc h' else (r, h'))
      by (unfold round; by rewrite Hidx, Hinc).
    rewrite Hround. clear Hround.
    assert (Htake : take (S k) (elements h incoming)
                    = take k (elements h incoming) ++ [inc])
      by by apply take_S_r.
    destruct (scan whitelisted inc) eqn:Hscan.
    + destruct (append_spec h h' r inc Hext Hfresh)
        as (Hext' & Hfresh' & Hel').
      destruct (append growslice r inc h') as [r' h''] eqn:Happ.
      simpl in Hext', Hfresh', Hel'.
      apply IH; [lia|done|done|].
      rewrite Hel', Hel, Htake, filter_app.
      f_equal. rewrite filter_cons_True by by apply scan_unmatched.
      done.
    + apply IH; [lia|done|done|].
      rewrite Hel, Htake, filter_app.
      rewrite (filter_cons_False _ inc); [by rewrite app_nil_r|].
      intros Hu. apply scan_unmatched in Hu. congruence.
Qed.

(** C9: the slice [findRemovable] returns holds an order-preserving
    subsequence of the elements of the input slice (the elements of the
    input that no item matches, which is what the function on values
    computes): every element of the output is an element of the input,
    in the order of the input; no array that was allocated before the
    call is written to, and the input slice holds after the call what it
    held before. *)
Theorem findRemovable_subsequence (incoming : slice)
    (whitelisted : list Item) (h : heap) :
  valid h incoming ->
  let removable := (Memory.findRemovable growslice incoming whitelisted h).1 in
  let h' := (Memory.findRemovable growslice incoming whitelisted h).2 in
  elements h' removable
    = Whitelist.findRemovable (elements h incoming) whitelisted
  /\ elements h' removable `sublist_of` elements h incoming
  /\ (forall inc, inc ∈ elements h' removable -> inc ∈ elements h incoming)
  /\ (forall (a : nat) arr, h !! a = Some arr -> h' !! a = Some arr)
  /\ elements h' incoming = elements h incoming.
Proof.
  intros Hv removable h'.
  destruct (rounds_spec incoming whitelisted h Hv (len incoming) 0
              nil_slice h) as (Hext & Hfresh & Hel);
    [done|apply extends_refl|by repeat split|done|].
  fold (Memory.findRemovable growslice incoming whitelisted h) in *.
  fold h' in Hext, Hfresh, Hel. fold removable in Hfresh, Hel.
  assert (Hsub : elements h' removable `sublist_of` elements h incoming).
  { rewrite Hel. apply sublist_filter. }
  split; [by rewrite findRemovable_filter|]. split; [done|].
  split; [|split].
  - intros inc Hin. eapply sublist_subseteq; [exact Hsub|done].
  - intros a arr Ha. rewrite (extends_lookup h h' a Hext); [done|].
    by eapply lookup_lt_Some.
  - by apply elements_extends.
Qed.

End Append.

(** Three records in one array, the first of them nil. *)
Definition example_heap : heap :=
  [[None; Some example_crt; Some example_crt]].

Lemma findRemovable_subsequence_witness :
  let incoming := mkSlice (Some 0%nat) 0 3 3 in
  let whitelisted := [Items.fingerprint "0000"] in
  let r := Memory.findRemovable Nat.max incoming whitelisted example_heap in
  elements r.2 r.1
    = Whitelist.findRemovable (elements example_heap incoming) whitelisted
  /\ elements r.2 r.1 `sublist_of` elements example_heap incoming
  /\ (forall inc, inc ∈ elements r.2 r.1 ->
                  inc ∈ elements example_heap incoming)
  /\ (forall (a : nat) arr, example_heap !! a = Some arr -> r.2 !! a = Some arr)
  /\ elements r.2 incoming = elements example_heap incoming.
Proof.
  apply (findRemovable_subsequence Nat.max).
  - intros c n. lia.
  - split; [simpl; lia|]. simpl. eexists. split; [reflexivity|]. simpl. lia.
Defined.

End MemoryProps.

Module LoaderProps.
Import Go Filepath OS Whitelist.

(** The error [loadFromFile] answers a path with that is empty or looks like
    a flag. *)
Definition invalid_path_error (path : string) : GoError :=
  Errorf ("The path '" +:+ path +:+ "' doesn't seem to contain a whitelist.").

Lemma validWhitelistPath_false path fs :
  path = "" \/ HasPrefix path "-" = true ->
  snd (validWhitelistPath path fs) = false.
Proof.
  intros H. unfold validWhitelistPath.
  destruct H as [Hempty | Hflag].
  - by subst path.
  - rewrite Hflag. by rewrite orb_true_r.
Qed.

Lemma validWhitelistPath_true path fs :
  path <> "" -> HasPrefix path "-" = false ->
  snd (validWhitelistPath path fs) = true.
Proof.
  intros Hne Hflag. unfold validWhitelistPath. rewrite Hflag.
  destruct path; [done|reflexivity].
Qed.

Lemma ReadFile_not_exist path fs e :
  Stat path fs = Err e -> IsNotExist e = true ->
  ReadFile path fs = Err (PathError "open" path ENOENT).
Proof.
  unfold Stat, ReadFile, Open.
  destruct (find fs path) as [errno|[m data|m|target]];
    intros [= <-]; try done.
  by destruct errno.
Qed.

(** C7: [loadFromFile] returns an error and no whitelist when the path is
    empty or starts with [-], and when there is no file at the path; in the
    second case, the path being neither empty nor a flag, the error is the
    one of the failed [open], which [os.IsNotExist] recognises. *)
Theorem loadFromFile_errors (json_Unmarshal : list Z -> result jsonWhitelist)
    (path : string) (fs : FS) :
  (path = "" \/ HasPrefix path "-" = true ->
   snd (loadFromFile json_Unmarshal path fs)
   = ([], Some (invalid_path_error path)))
  /\ (forall e, Stat path fs = Err e -> IsNotExist e = true ->
      exists e', snd (loadFromFile json_Unmarshal path fs) = ([], Some e')
                 /\ (path <> "" -> HasPrefix path "-" = false ->
                     e' = PathError "open" path ENOENT
                     /\ IsNotExist e' = true)).
Proof.
  split.
  - intros H. unfold loadFromFile.
    pose proof (validWhitelistPath_false path fs H) as Hv.
    destruct (validWhitelistPath path fs) as [out valid].
    simpl in Hv. by rewrite Hv.
  - intros e HStat He. unfold loadFromFile.
    destruct (validWhitelistPath path fs) as [out valid] eqn:Hvp.
    destruct valid; simpl.
    + rewrite (ReadFile_not_exist path fs e HStat He). simpl.
      eexists. split; [reflexivity|]. done.
    + eexists. split; [reflexivity|]. intros Hne Hflag.
      pose proof (validWhitelistPath_true path fs Hne Hflag) as Hv.
      rewrite Hvp in Hv. done.
Qed.

(** A tree with one whitelist file. *)
Definition example_fs : FS :=
  <[ ["etc"] := Dir 493 ]>
    (<[ ["etc"; "whitelist.json"] := File 420 [123; 125] ]> ∅).

Definition no_decoder (b : list Z) : result jsonWhitelist :=
  Err (UnmarshalError "unexpected end of JSON input").

Lemma loadFromFile_errors_witness :
  snd (loadFromFile no_decoder "-whitelist" example_fs)
  = ([], Some (invalid_path_error "-whitelist"))
  /\ exists e', snd (loadFromFile no_decoder "/etc/missing.json" example_fs)
                = ([], Some e')
                /\ IsNotExist e' = true.
Proof.
  destruct (loadFromFile_errors no_decoder "-whitelist" example_fs)
    as [Hflag _].
  destruct (loadFromFile_errors no_decoder "/etc/missing.json" example_fs)
    as [_ Hmissing].
  split.
  - apply Hflag. right. reflexivity.
  - destruct (Hmissing (PathError "stat" "/etc/missing.json" ENOENT))
      as (e' & Hload & He'); [reflexivity|reflexivity|].
    exists e'. split; [exact Hload|].
    apply He'; [discriminate|reflexivity].
Defined.

End LoaderProps.

Module StoreProps.
Import Go Store.
Import ItemsProps (example_crt).

(** A system that trusts one certificate and holds no backup. *)
Definition fresh_world : World :=
  mkWorld [example_crt] None (fun _ => ("", None)) [].

(** C1, as stated, fails: at the start of a session, before any [Backup],
    [Remove] does not fail. *)
Lemma Remove_without_backup_returns_nil :
  no_backup [] [] = true
  /\ backupRecord fresh_world = None
  /\ snd (Remove windowsStore [] fresh_world) = None.
Proof. repeat split. Qed.

(** C1 (amended): for every whitelist, [Remove] of the Windows store, invoked
    in a session without a successful [Backup], returns nil, and the live
    store (the whole system, in fact) is what it was before the call. *)
Theorem Remove_without_backup (calls : list Call) (w : World)
    (wh : list Item) :
  no_backup calls (snd (session windowsStore calls w)) = true ->
  let w' := fst (session windowsStore calls w) in
  Remove windowsStore wh w' = (w', None)
  /\ live (fst (Remove windowsStore wh w')) = live w'.
Proof. intros _. split; reflexivity. Qed.

Lemma Remove_without_backup_witness :
  let w' := fst (session windowsStore [CallList; CallRestore] fresh_world) in
  Remove windowsStore [Items.fingerprint "96940d99"] w' = (w', None)
  /\ live (fst (Remove windowsStore [Items.fingerprint "96940d99"] w'))
     = live w'.
Proof.
  apply (Remove_without_backup [CallList; CallRestore] fresh_world
           [Items.fingerprint "96940d99"]).
  reflexivity.
Defined.

(** C6, as stated, fails: without any backup record, [Restore] does not
    fail. *)
Lemma Restore_without_backup_returns_nil :
  backupRecord fresh_world = None
  /\ snd (Restore windowsStore fresh_world) = None.
Proof. split; reflexivity. Qed.

(** C6 (amended): [Restore] of the Windows store, invoked when no backup
    record exists, returns nil and leaves the live store (the whole system,
    in fact) untouched. *)
Theorem Restore_without_backup (w : World) :
  backupRecord w = None ->
  Restore windowsStore w = (w, None)
  /\ live (fst (Restore windowsStore w)) = live w.
Proof. intros _. split; reflexivity. Qed.

Lemma Restore_without_backup_witness :
  Restore windowsStore fresh_world = (fresh_world, None)
  /\ live (fst (Restore windowsStore fresh_world)) = live fresh_world.
Proof. apply (Restore_without_backup fresh_world). reflexivity. Defined.

End StoreProps.

Module FileProps.
Import Go Filepath OS File.

(** Nothing that [fs] holds is missing from [fs']. *)
Definition keeps (fs fs' : FS) : Prop :=
  forall p, is_Some (fs !! p) -> is_Some (fs' !! p).

Lemma keeps_refl fs : keeps fs fs.
Proof. by intros p. Qed.

Lemma keeps_trans fs1 fs2 fs3 : keeps fs1 fs2 -> keeps fs2 fs3 -> keeps fs1 fs3.
Proof. intros H12 H23 p Hp. by apply H23, H12. Qed.

Lemma keeps_insert (fs : FS) p n : keeps fs (<[p := n]> fs).
Proof. intros q Hq. apply lookup_insert_is_Some'. by right. Qed.

Create HintDb keeps.
#[local] Hint Resolve keeps_refl keeps_insert : keeps.

(** Every call of the model either leaves the tree alone or inserts. *)
Ltac keeps_cases :=
  repeat case_match; simplify_eq; eauto using keeps_trans with keeps.

Lemma mkdir_down_keeps perm rest : forall cur fs fs' r,
  mkdir_down perm cur rest fs = (fs', r) -> keeps fs fs'.
Proof.
  induction rest as [|e rest IH]; intros cur fs fs' r; simpl.
  - intros [= <- _]. apply keeps_refl.
  - destruct (fs !! (cur ++ [e])) as [[m data|m|target]|] eqn:Hp.
    + intros [= <- _]. apply keeps_refl.
    + apply IH.
    + intros [= <- _]. apply keeps_refl.
    + intros H. eapply keeps_trans; [apply keeps_insert|]. eapply IH, H.
Qed.

Lemma MkdirAll_keeps path perm fs fs' err :
  MkdirAll path perm fs = (fs', err) -> keeps fs fs'.
Proof.
  unfold MkdirAll. case_bool_decide.
  { intros [= <- _]. apply keeps_refl. }
  destruct (mkdir_down perm [] (locate path) fs) as [fs1 r] eqn:Hdown.
  intros [= <- _]. eapply mkdir_down_keeps, Hdown.
Qed.

Lemma Symlink_keeps oldname newname fs fs' err :
  Symlink_ oldname newname fs = (fs', err) -> keeps fs fs'.
Proof. unfold Symlink_. intros H. keeps_cases. Qed.

Lemma Create_keeps name fs fs' r :
  Create name fs = (fs', r) -> keeps fs fs'.
Proof. unfold Create. intros H. keeps_cases. Qed.

Lemma Copy_keeps out in_ fs fs' err :
  Copy out in_ fs = (fs', err) -> keeps fs fs'.
Proof. unfold Copy. intros H. keeps_cases. Qed.

Lemma Chmod_keeps name mode fs fs' err :
  Chmod name mode fs = (fs', err) -> keeps fs fs'.
Proof. unfold Chmod. intros H. keeps_cases. Qed.

Lemma CopyFile_keeps src dst fs fs' err :
  CopyFile src dst fs = (fs', err) -> keeps fs fs'.
Proof.
  unfold CopyFile. intros H.
  destruct (Open src fs) as [in_|e]; [|simplify_eq; apply keeps_refl].
  destruct (Create dst fs) as [fs1 [out|e]] eqn:HCreate;
    apply Create_keeps in HCreate; [|by simplify_eq].
  destruct (Copy out in_ fs1) as [fs2 [e|]] eqn:HCopy;
    apply Copy_keeps in HCopy; [simplify_eq; eauto using keeps_trans|].
  destruct (Stat src fs2) as [s|e]; [|simplify_eq; eauto using keeps_trans].
  destruct (Chmod dst (Mode s) fs2) as [fs3 [e|]] eqn:HChmod;
    apply Chmod_keeps in HChmod; simplify_eq; eauto using keeps_trans.
Qed.

Lemma for_range_keeps {A} (body : A -> FS -> option (FS * error)) xs :
  (forall x fs fs' err, body x fs = Some (fs', err) -> keeps fs fs') ->
  forall fs fs' err,
    for_range body xs fs = Some (fs', err) -> keeps fs fs'.
Proof.
  intros Hbody. induction xs as [|x xs IH]; intros fs fs' err; simpl.
  - intros [= <- _]. apply keeps_refl.
  - destruct (body x fs) as [[fs1 [e|]]|] eqn:Hx; [| |done].
    + intros [= <- _]. eapply Hbody, Hx.
    + intros H. eapply keeps_trans; [eapply Hbody, Hx|eapply IH, H].
Qed.

Lemma mirrorItem_keeps mirror src dst item :
  (forall s d fs fs' err, mirror s d fs = Some (fs', err) -> keeps fs fs') ->
  forall fs fs' err,
    mirrorItem mirror src dst item fs = Some (fs', err) -> keeps fs fs'.
Proof.
  intros Hmirror fs fs' err. unfold mirrorItem.
  destruct (IsDir item); [apply Hmirror|].
  destruct (negb _).
  - destruct (Readlink _ fs) as [final|e].
    + intros [= H]. eapply Symlink_keeps, H.
    + intros [= <- _]. apply keeps_refl.
  - intros [= H]. eapply CopyFile_keeps, H.
Qed.

Lemma MirrorDir_keeps fuel : forall src dst fs fs' err,
  MirrorDir fuel src dst fs = Some (fs', err) -> keeps fs fs'.
Proof.
  induction fuel as [|fuel IH]; intros src dst fs fs' err; [done|].
  simpl.
  destruct (Stat (Clean src) fs) as [s|e]; [|intros [= <- _]; apply keeps_refl].
  destruct (negb (IsDir s)); [intros [= <- _]; apply keeps_refl|].
  destruct (_ && _); [intros [= <- _]; apply keeps_refl|].
  destruct (MkdirAll (Clean dst) (Mode s) fs) as [fs1 err1] eqn:HMkdir.
  apply MkdirAll_keeps in HMkdir.
  destruct (ReadDir (Clean src) fs1) as [items|e]; [|by intros [= <- _]].
  intros H. eapply keeps_trans; [exact HMkdir|].
  eapply for_range_keeps, H.
  intros item. apply mirrorItem_keeps, IH.
Qed.

(** The loop of [MirrorDir] went over all of [items] and every step came
    back with nil: the recursive call for a directory, [Readlink] and
    [Symlink] for a link, [CopyFile] for anything else. *)
Inductive mirrored (fuel : nat) (src dst : string)
  : list FileInfo -> FS -> FS -> Prop :=
| mirrored_done fs :
    mirrored fuel src dst [] fs fs
| mirrored_dir item items fs fs1 fs2 :
    IsDir item = true ->
    MirrorDir fuel (Join src (Name item)) (Join dst (Name item)) fs
      = Some (fs1, None) ->
    mirrored fuel src dst items fs1 fs2 ->
    mirrored fuel src dst (item :: items) fs fs2
| mirrored_link item items final fs fs1 fs2 :
    IsDir item = false ->
    Z.land (Mode item) ModeSymlink <> 0 ->
    Readlink (Join src (Name item)) fs = Ok final ->
    Symlink_ final (Join dst (Name item)) fs = (fs1, None) ->
    mirrored fuel src dst items fs1 fs2 ->
    mirrored fuel src dst (item :: items) fs fs2
| mirrored_file item items fs fs1 fs2 :
    IsDir item = false ->
    Z.land (Mode item) ModeSymlink = 0 ->
    CopyFile (Join src (Name item)) (Join dst (Name item)) fs = (fs1, None) ->
    mirrored fuel src dst items fs1 fs2 ->
    mirrored fuel src dst (item :: items) fs fs2.

Lemma for_range_mirrored fuel src dst items : forall fs fs',
  for_range (mirrorItem (MirrorDir fuel) src dst) items fs = Some (fs', None) ->
  mirrored fuel src dst items fs fs'.
Proof.
  induction items as [|item items IH]; intros fs fs'; simpl.
  - intros [= <-]. constructor.
  - destruct (mirrorItem _ src dst item fs) as [[fs1 [e|]]|] eqn:Hitem;
      [done| |done].
    intros Hrest. apply IH in Hrest.
    unfold mirrorItem in Hitem.
    destruct (IsDir item) eqn:Hdir.
    { eapply mirrored_dir; eauto. }
    destruct (Z.land (Mode item) ModeSymlink =? 0) eqn:Hlink; simpl in Hitem.
    + apply Z.eqb_eq in Hlink. injection Hitem as Hcopy.
      eapply mirrored_file; eauto.
    + apply Z.eqb_neq in Hlink.
      destruct (Readlink _ fs) as [final|e] eqn:Hread; [|done].
      injection Hitem as Hsym.
      eapply mirrored_link; eauto.
Qed.



(** The error of [os.MkdirAll] is lost: the destination is a file, the
    source an empty directory, and [MirrorDir] returns nil. *)
Example MirrorDir_drops_MkdirAll_error :
  let fs : FS := <[ ["src"] := Dir 493 ]> (<[ ["dst"] := File 420 [] ]> ∅) in
  snd (MkdirAll "/dst" 493 fs) = Some (PathError "mkdir" "/dst" ENOTDIR)
  /\ MirrorDir 1 "/src" "/dst" fs = Some (fs, None).
Proof. split; vm_compute; reflexivity. Qed.

(** A source with a file, a link and a directory, and no destination. *)
Definition source_fs : FS :=
  <[ ["src"] := Dir 493 ]>
    (<[ ["src"; "a"] := File 420 [104; 105] ]>
       (<[ ["src"; "l"] := Symlink "a" ]>
          (<[ ["src"; "d"] := Dir 448 ]>
             (<[ ["src"; "d"; "x"] := File 384 [7] ]> ∅)))).

Definition mirrored_fs : FS :=
  Eval vm_compute in
    from_option fst source_fs (MirrorDir 2 "/src" "/dst" source_fs).

End FileProps.

Module ServerProps.
Import Go Server.

Lemma wrap_small z : int_min <= z <= int_max -> wrap z = z.
Proof.
  unfold wrap, int_min, int_max. intros Hz.
  rewrite Z.mod_small by lia. lia.
Qed.

(** C10: [getPort] returns, for every number the generator delivers, a port
    [n] with [1024 <= n <= 65535]; it never panics. *)
Theorem getPort_range (raw : Z) :
  exists n, getPort raw = Some n /\ 1024 <= n <= 65535.
Proof.
  unfold getPort, rand_Intn.
  assert (Hn : int_sub (Z.shiftl 2 15) 1024 = 64512) by reflexivity.
  rewrite Hn. simpl.
  pose proof (Z.mod_pos_bound raw 64512 ltac:(lia)) as Hr.
  exists (raw mod 64512 + 1024). split.
  - unfold int_add. rewrite wrap_small; [reflexivity|].
    unfold int_min, int_max. lia.
  - lia.
Qed.

End ServerProps.


(** ** Further properties of the resolver *)

Module ResolverProps.
Import Whitelist WhitelistProps.
Import ItemsProps (example_crt).

Lemma unmatched_app W W' inc :
  unmatched (W ++ W') inc <-> unmatched W inc /\ unmatched W' inc.
Proof. unfold unmatched. apply Forall_app. Qed.

Lemma unmatched_Permutation W W' inc :
  W ≡ₚ W' -> unmatched W inc <-> unmatched W' inc.
Proof. unfold unmatched. intros HW. by rewrite HW. Qed.

(** X1: the removable records of two snapshots put one behind the other are
    the removable records of the first followed by those of the second. *)
Theorem findRemovable_app (S1 S2 : list CertPtr) (W : list Item) :
  findRemovable (S1 ++ S2) W = findRemovable S1 W ++ findRemovable S2 W.
Proof. rewrite !findRemovable_filter. apply filter_app. Qed.

(** X2: the order of the items of the whitelist plays no role: two
    whitelists that are permutations of each other give the same result. *)
Theorem findRemovable_whitelist_order (S : list CertPtr) (W W' : list Item) :
  W ≡ₚ W' -> findRemovable S W = findRemovable S W'.
Proof.
  intros HW. rewrite !findRemovable_filter.
  apply list_filter_iff. intros inc. by apply unmatched_Permutation.
Qed.

Lemma findRemovable_whitelist_order_witness :
  findRemovable [Some example_crt; None]
    [Items.fingerprint "96940d99"; Items.IssuersCommonNameWhitelistItem "GlobalSign"]
  = findRemovable [Some example_crt; None]
      [Items.IssuersCommonNameWhitelistItem "GlobalSign"; Items.fingerprint "96940d99"].
Proof.
  apply (findRemovable_whitelist_order [Some example_crt; None]).
  apply perm_swap.
Defined.

(** X3: resolving against two whitelists joined into one is resolving against
    the first and then resolving the result against the second; more items
    never make more records removable. *)
Theorem findRemovable_whitelist_app (S : list CertPtr) (W W' : list Item) :
  findRemovable S (W ++ W') = findRemovable (findRemovable S W) W'
  /\ findRemovable S (W ++ W') `sublist_of` findRemovable S W.
Proof.
  assert (Heq : findRemovable S (W ++ W')
                = findRemovable (findRemovable S W) W').
  { rewrite !findRemovable_filter, list_filter_filter.
    apply list_filter_iff. intros inc. rewrite unmatched_app. tauto. }
  split; [exact Heq|].
  rewrite Heq, (findRemovable_filter (findRemovable S W)).
  apply sublist_filter.
Qed.

(** X4: resolving the result once more against the same whitelist changes
    nothing. *)
Theorem findRemovable_idempotent (S : list CertPtr) (W : list Item) :
  findRemovable (findRemovable S W) W = findRemovable S W.
Proof.
  rewrite !findRemovable_filter. by apply list_filter_filter_r.
Qed.

(** X5: the result does not depend on the order in which the store lists its
    certificates, up to that order: a reordered snapshot gives a reordering
    of the same result. *)
Theorem findRemovable_snapshot_order (S S' : list CertPtr) (W : list Item) :
  S ≡ₚ S' -> findRemovable S W ≡ₚ findRemovable S' W.
Proof.
  intros HS. rewrite !findRemovable_filter. by apply filter_Permutation.
Qed.

Lemma findRemovable_snapshot_order_witness :
  findRemovable [Some example_crt; None] [Items.fingerprint "0000"]
  ≡ₚ findRemovable [None; Some example_crt] [Items.fingerprint "0000"].
Proof.
  apply (findRemovable_snapshot_order [Some example_crt; None]
           [None; Some example_crt]).
  apply perm_swap.
Defined.

End ResolverProps.


(** ** Further properties of [findRemovable] on slices in memory *)

Module SliceProps.
Import Whitelist Memory WhitelistProps MemoryProps.
Import ItemsProps (example_crt).

(** Every record is matched by an item of the whitelist. *)
Definition all_matched (whitelisted : list Item) (l : list CertPtr) : Prop :=
  Forall (fun inc => Exists (fun wh => matched inc wh = true) whitelisted) l.

Lemma matched_scan whitelisted inc :
  Exists (fun wh => matched inc wh = true) whitelisted ->
  scan whitelisted inc = false.
Proof.
  intros Hex. destruct (scan whitelisted inc) eqn:Hscan; [|done].
  apply scan_unmatched in Hscan. unfold unmatched in Hscan.
  apply Exists_exists in Hex as (wh & Hwh & Hm).
  rewrite Forall_forall in Hscan. specialize (Hscan wh Hwh). congruence.
Qed.

Lemma fold_left_fixed {A B} (f : A -> B -> A) (l : list B) (a : A) :
  (forall b, f a b = a) -> fold_left f l a = a.
Proof.
  intros Hf. induction l as [|b l IH]; [done|]. simpl. by rewrite Hf.
Qed.

Section Append.

Variable growslice : nat -> nat -> nat.

(** X6: when every record of the input slice is matched by some item,
    [findRemovable] returns the nil slice and allocates nothing: memory is
    what it was before the call. *)
Theorem findRemovable_all_whitelisted (incoming : slice)
    (whitelisted : list Item) (h : heap) :
  valid h incoming ->
  all_matched whitelisted (elements h incoming) ->
  Memory.findRemovable growslice incoming whitelisted h = (nil_slice, h).
Proof.
  intros Hv Hall. unfold Memory.findRemovable.
  apply fold_left_fixed. intros i. unfold round.
  destruct (decide (i < len incoming)%nat) as [Hi|Hi].
  - destruct (index_elements h h incoming i Hv (extends_refl h) Hi)
      as [Hidx [inc Hinc]].
    rewrite Hidx, Hinc.
    unfold all_matched in Hall. rewrite Forall_forall in Hall.
    rewrite matched_scan; [done|].
    apply Hall. by eapply list_elem_of_lookup_2.
  - unfold index. apply Nat.ltb_nlt in Hi. by rewrite Hi.
Qed.

Hypothesis growslice_holds : forall c n, (n <= growslice c n)%nat.

(** X7: the slice [findRemovable] returns is a valid slice with one element
    for each record that no item matches, and it never shares its array with
    the input slice or with any slice that existed before the call: its
    array, if it has one, was allocated during the call. *)
Theorem findRemovable_result_fresh (incoming : slice)
    (whitelisted : list Item) (h : heap) :
  valid h incoming ->
  let removable := (Memory.findRemovable growslice incoming whitelisted h).1 in
  let h' := (Memory.findRemovable growslice incoming whitelisted h).2 in
  valid h' removable
  /\ len removable
     = length (Whitelist.findRemovable (elements h incoming) whitelisted)
  /\ forall a, array removable = Some a ->
       (length h <= a)%nat /\ array incoming <> Some a.
Proof.
  intros Hv removable h'.
  destruct (rounds_spec growslice growslice_holds incoming whitelisted h Hv
              (len incoming) 0 nil_slice h) as (Hext & Hfresh & Hel);
    [done|apply extends_refl|by repeat split|done|].
  fold (Memory.findRemovable growslice incoming whitelisted h) in *.
  fold h' in Hext, Hfresh, Hel. fold removable in Hfresh, Hel.
  destruct Hfresh as [Hvalid Harr].
  split; [done|]. split.
  - rewrite findRemovable_filter, <- (elements_length h' removable Hvalid).
    f_equal. exact Hel.
  - intros a Ha. rewrite Ha in Harr. split; [done|].
    intros Hin. destruct Hv as [_ Hinc]. rewrite Hin in Hinc.
    destruct Hinc as (arr & Harr' & _).
    apply lookup_lt_Some in Harr'. lia.
Qed.

End Append.

Lemma findRemovable_all_whitelisted_witness :
  Memory.findRemovable Nat.max (mkSlice (Some 0%nat) 1 2 2)
    [Items.fingerprint "96940d99"] example_heap
  = (nil_slice, example_heap).
Proof.
  apply (findRemovable_all_whitelisted Nat.max).
  - split; [simpl; lia|]. simpl. eexists. split; [reflexivity|]. simpl. lia.
  - repeat constructor.
Defined.

Lemma findRemovable_result_fresh_witness :
  let incoming := mkSlice (Some 0%nat) 0 3 3 in
  let r := Memory.findRemovable Nat.max incoming [Items.fingerprint "0000"]
             example_heap in
  valid r.2 r.1
  /\ len r.1
     = length (Whitelist.findRemovable (elements example_heap incoming)
                 [Items.fingerprint "0000"])
  /\ forall a, array r.1 = Some a ->
       (length example_heap <= a)%nat /\ array incoming <> Some a.
Proof.
  apply (findRemovable_result_fresh Nat.max).
  - intros c n. lia.
  - split; [simpl; lia|]. simpl. eexists. split; [reflexivity|]. simpl. lia.
Defined.

End SliceProps.


(** ** Further properties of the whitelist loader *)

Module LoaderMoreProps.
Import Go Filepath OS Whitelist LoaderProps.

Lemma snoc_items (hex : list string) (items : list Item) :
  fold_left (fun items s => items ++ [Items.fingerprint s]) hex items
  = items ++ (Items.fingerprint <$> hex).
Proof.
  revert items. induction hex as [|s hex IH]; intros items; simpl.
  - by rewrite app_nil_r.
  - rewrite IH. by rewrite <- app_assoc.
Qed.

(** X8: the verdict of [validWhitelistPath] is a matter of the text of the
    path alone: it is true exactly when the path is not empty and does not
    start with [-], whether or not anything exists at the path (a path that
    does not exist only makes it print a line). *)
Theorem validWhitelistPath_verdict (path : string) (fs : FS) :
  snd (validWhitelistPath path fs) = true
  <-> path <> "" /\ HasPrefix path "-" = false.
Proof.
  split.
  - intros Hv. split.
    + intros ->. by rewrite validWhitelistPath_false in Hv by by left.
    + destruct (HasPrefix path "-") eqn:Hflag; [|done].
      by rewrite validWhitelistPath_false in Hv by by right.
  - intros [Hne Hflag]. by apply validWhitelistPath_true.
Qed.

(** X9: a whitelist file that can be read and decoded gives one fingerprint
    item for each entry of [Signatures.Hex], in the order of the file and
    without removing repeated entries, and a nil error. *)
Theorem loadFromFile_items (json_Unmarshal : list Z -> result jsonWhitelist)
    (path : string) (fs : FS) (b : list Z) (parsed : jsonWhitelist) :
  path <> "" -> HasPrefix path "-" = false ->
  ReadFile path fs = Ok b ->
  json_Unmarshal b = Ok parsed ->
  snd (loadFromFile json_Unmarshal path fs)
  = (Items.fingerprint <$> Hex (Signatures parsed), None).
Proof.
  intros Hne Hflag Hread Hparse. unfold loadFromFile.
  pose proof (validWhitelistPath_true path fs Hne Hflag) as Hv.
  destruct (validWhitelistPath path fs) as [out valid]. simpl in Hv.
  rewrite Hv. simpl. rewrite Hread, Hparse. simpl.
  by rewrite snoc_items.
Qed.

Definition example_decoder (b : list Z) : result jsonWhitelist :=
  Ok (mkJsonWhitelist (mkJsonSignatures ["96940d99"; "05a6db38"; "96940d99"])).

Lemma loadFromFile_items_witness :
  snd (loadFromFile example_decoder "/etc/whitelist.json" example_fs)
  = (Items.fingerprint <$> ["96940d99"; "05a6db38"; "96940d99"], None).
Proof.
  apply (loadFromFile_items example_decoder "/etc/whitelist.json" example_fs
           [123; 125]
           (mkJsonWhitelist (mkJsonSignatures ["96940d99"; "05a6db38"; "96940d99"]))).
  - discriminate.
  - reflexivity.
  - vm_compute. reflexivity.
  - reflexivity.
Defined.

(** X10: [loadFromFile] never returns items together with an error: with a
    non-nil error the list is nil, and the error is the one for a bad path,
    the error of reading the file or the error of the decoder, as it came. *)
Theorem loadFromFile_error_no_items
    (json_Unmarshal : list Z -> result jsonWhitelist)
    (path : string) (fs : FS) (items : list Item) (e : GoError) :
  snd (loadFromFile json_Unmarshal path fs) = (items, Some e) ->
  items = []
  /\ (e = invalid_path_error path
      \/ ReadFile path fs = Err e
      \/ exists b, ReadFile path fs = Ok b /\ json_Unmarshal b = Err e).
Proof.
  unfold loadFromFile.
  destruct (validWhitelistPath path fs) as [out valid].
  destruct valid; simpl.
  - destruct (ReadFile path fs) as [b|e1] eqn:Hread; simpl.
    + destruct (json_Unmarshal b) as [parsed|e2] eqn:Hparse; simpl; [done|].
      intros [= <- <-]. split; [done|]. right. right. by exists b.
    + intros [= <- <-]. split; [done|]. by right; left.
  - intros [= <- <-]. split; [done|]. by left.
Qed.

Lemma loadFromFile_error_no_items_witness :
  @nil Item = []
  /\ (UnmarshalError "unexpected end of JSON input"
        = invalid_path_error "/etc/whitelist.json"
      \/ ReadFile "/etc/whitelist.json" example_fs
         = Err (UnmarshalError "unexpected end of JSON input")
      \/ exists b, ReadFile "/etc/whitelist.json" example_fs = Ok b
                   /\ no_decoder b
                      = Err (UnmarshalError "unexpected end of JSON input")).
Proof.
  apply (loadFromFile_error_no_items no_decoder "/etc/whitelist.json"
           example_fs).
  vm_compute. reflexivity.
Defined.

End LoaderMoreProps.


(** ** Further properties of [CopyFile] and [MirrorDir] *)

Module FileMoreProps.
Import Go Filepath OS File FileProps.

(** The tree holds no symbolic link. *)
Definition is_link (n : node) : bool :=
  match n with
  | Symlink _ => true
  | _ => false
  end.

Definition link_free (fs : FS) : Prop :=
  map_Forall (fun _ n => is_link n = false) fs.

Lemma walk_node fs rest : forall cur n,
  walk fs cur rest = inr n -> node_at fs (cur ++ rest) = Some n.
Proof.
  induction rest as [|e rest IH]; intros cur n; simpl.
  - rewrite app_nil_r. destruct (node_at fs cur); by intros [= <-].
  - destruct (node_at fs cur) as [[m data|m|target]|]; try done.
    intros H. apply IH in H. by rewrite <- app_assoc in H.
Qed.

Lemma node_at_insert_ne (fs : FS) p q n :
  p <> q -> node_at (<[p := n]> fs) q = node_at fs q.
Proof. intros Hne. destruct q; [done|]. simpl. by rewrite lookup_insert_ne. Qed.

Lemma node_at_insert_eq (fs : FS) p n :
  p <> [] -> node_at (<[p := n]> fs) p = Some n.
Proof. intros Hne. destruct p; [done|]. simpl. by rewrite lookup_insert_eq. Qed.


Lemma find_node fs name n :
  find fs name = inr n -> name <> "" /\ node_at fs (locate name) = Some n.
Proof.
  unfold find. case_bool_decide; [done|]. intros Hwalk.
  split; [done|]. by apply (walk_node fs (locate name) []).
Qed.

Lemma find_file fs name m data :
  find fs name = inr (File m data) ->
  locate name <> [] /\ fs !! locate name = Some (File m data).
Proof.
  intros H. apply find_node in H as [_ H].
  destruct (locate name); [done|]. by split.
Qed.



Lemma land_perm_idem m : Z.land (Z.land m ModePerm) ModePerm = Z.land m ModePerm.
Proof. rewrite <- Z.land_assoc. by rewrite Z.land_diag. Qed.

(** [fs'] differs from [fs] at most at the place [p]. *)
Definition only_at (p : list string) (fs fs' : FS) : Prop :=
  forall q, q <> p -> fs' !! q = fs !! q.

Lemma only_at_refl (p : list string) (fs : FS) : only_at p fs fs.
Proof. by intros q. Qed.

Lemma only_at_trans (p : list string) (fs1 fs2 fs3 : FS) :
  only_at p fs1 fs2 -> only_at p fs2 fs3 -> only_at p fs1 fs3.
Proof. intros H12 H23 q Hq. rewrite H23, H12; done. Qed.

Lemma only_at_insert (p : list string) (fs : FS) (n : node) :
  only_at p fs (<[p := n]> fs).
Proof. intros q Hq. by rewrite lookup_insert_ne. Qed.

Lemma Open_ok name fs f :
  Open name fs = Ok f ->
  f = locate name /\ exists n, find fs name = inr n.
Proof.
  unfold Open. destruct (find fs name) as [errno|[m data|m|target]];
    intros [= <-]; eauto.
Qed.

Lemma Create_ok name fs fs1 out :
  Create name fs = (fs1, Ok out) ->
  out = locate name /\ locate name <> []
  /\ exists m, fs1 = <[locate name := File m []]> fs.
Proof.
  unfold Create. destruct (find fs name) as [errno|[m data|m|target]] eqn:Hfind.
  - unfold creatable. rewrite Hfind. case_bool_decide as Hname; [done|].
    destruct (walk fs [] (removelast (locate name))) as [e|[m data|m|target]];
      try done.
    intros [= <- <-]. split; [done|]. split; [|by eexists].
    intros Hroot. unfold find in Hfind.
    rewrite bool_decide_eq_false_2, Hroot in Hfind by done. done.
  - intros [= <- <-]. apply find_file in Hfind as [Hne _]. eauto.
  - done.
  - done.
Qed.

Lemma Copy_ok out in_ fs1 fs2 :
  Copy out in_ fs1 = (fs2, None) ->
  exists m data mo old,
    node_at fs1 in_ = Some (File m data)
    /\ node_at fs1 out = Some (File mo old)
    /\ fs2 = <[out := File mo (data ++ drop (length data) old)]> fs1.
Proof.
  unfold Copy.
  destruct (node_at fs1 in_) as [[m data|m|target]|];
    destruct (node_at fs1 out) as [[mo old|mo|t]|]; try done.
  intros [= <-]. by exists m, data, mo, old.
Qed.

Lemma Chmod_file name mode fs m data :
  find fs name = inr (File m data) ->
  Chmod name mode fs
  = (<[locate name := File (Z.land mode ModePerm) data]> fs, None).
Proof.
  intros Hfind. unfold Chmod. rewrite Hfind.
  apply find_file in Hfind as [Hne _]. by destruct (locate name).
Qed.

(** X11: in a tree without links, [CopyFile] changes nothing but the
    destination, whether it succeeds or fails: every other path names after
    the call what it named before. *)
Theorem CopyFile_only_dst (src dst : string) (fs fs' : FS) (err : error) :
  link_free fs ->
  CopyFile src dst fs = (fs', err) ->
  forall p, p <> locate dst -> fs' !! p = fs !! p.
Proof.
  intros _ H. change (only_at (locate dst) fs fs').
  unfold CopyFile in H.
  destruct (Open src fs) as [in_|e]; [|simplify_eq; apply only_at_refl].
  destruct (Create dst fs) as [fs1 [out|e]] eqn:HCreate.
  2:{ assert (fs1 = fs) as ->; [|simplify_eq; apply only_at_refl].
      unfold Create in HCreate. repeat case_match; by simplify_eq. }
  apply Create_ok in HCreate as (-> & Hne & m0 & ->).
  assert (H1 : only_at (locate dst) fs (<[locate dst := File m0 []]> fs))
    by apply only_at_insert.
  destruct (Copy _ in_ _) as [fs2 [e|]] eqn:HCopy.
  { assert (fs2 = <[locate dst := File m0 []]> fs) as ->; [|by simplify_eq].
    unfold Copy in HCopy. repeat case_match; by simplify_eq. }
  apply Copy_ok in HCopy as (m & data & mo & old & _ & _ & ->).
  assert (H2 : only_at (locate dst) fs
                 (<[locate dst := File mo (data ++ drop (length data) old)]>
                    (<[locate dst := File m0 []]> fs)))
    by (eapply only_at_trans; [exact H1|apply only_at_insert]).
  destruct (Stat src _) as [s|e]; [|by simplify_eq].
  destruct (Chmod dst (Mode s) _) as [fs3 err3] eqn:HChmod.
  assert (H3 : only_at (locate dst) fs fs3).
  { eapply only_at_trans; [exact H2|].
    unfold Chmod in HChmod.
    repeat case_match; simplify_eq;
      first [apply only_at_refl | apply only_at_insert]. }
  destruct err3; by simplify_eq.
Qed.

(** Two files and a directory. *)
Definition plain_fs : FS :=
  <[ ["src"] := Dir 493 ]>
    (<[ ["src"; "a"] := File 420 [104; 105] ]>
       (<[ ["dst"] := Dir 448 ]>
          (<[ ["dst"; "a"] := File 384 [1; 2; 3] ]> ∅))).

Lemma plain_fs_link_free : link_free plain_fs.
Proof.
  unfold link_free, plain_fs.
  repeat (apply map_Forall_insert_2; [reflexivity|]).
  apply map_Forall_empty.
Qed.

Lemma CopyFile_only_dst_witness :
  (CopyFile "/src/a" "/dst/a" plain_fs).1 !! ["src"; "a"]
  = plain_fs !! ["src"; "a"].
Proof.
  apply (CopyFile_only_dst "/src/a" "/dst/a" plain_fs
           (CopyFile "/src/a" "/dst/a" plain_fs).1
           (CopyFile "/src/a" "/dst/a" plain_fs).2).
  - exact plain_fs_link_free.
  - by destruct (CopyFile "/src/a" "/dst/a" plain_fs).
  - vm_compute. discriminate.
Defined.

(** X12: in a tree without links, when [CopyFile] returns nil and source
    and destination are different places, the source was a regular file, it
    is unchanged, and the destination is a regular file with the bytes and
    the permission bits of the source. *)
Theorem CopyFile_copies (src dst : string) (fs fs' : FS) :
  link_free fs ->
  CopyFile src dst fs = (fs', None) ->
  locate src <> locate dst ->
  exists m data,
    fs !! locate src = Some (File m data)
    /\ fs' !! locate src = Some (File m data)
    /\ fs' !! locate dst = Some (File (Z.land m ModePerm) data).
Proof.
  intros _ H Hplaces. unfold CopyFile in H.
  destruct (Open src fs) as [in_|e] eqn:HOpen; [|done].
  apply Open_ok in HOpen as (-> & n & Hsrc).
  destruct (Create dst fs) as [fs1 [out|e]] eqn:HCreate; [|done].
  apply Create_ok in HCreate as (-> & Hne & m0 & ->).
  destruct (Copy _ _ _) as [fs2 [e|]] eqn:HCopy; [done|].
  apply Copy_ok in HCopy as (m & data & mo & old & Hin & Hout & ->).
  rewrite node_at_insert_ne in Hin by done.
  rewrite node_at_insert_eq in Hout by done. injection Hout as <- <-.
  rewrite drop_nil, app_nil_r in H.
  assert (Hfile : fs !! locate src = Some (File m data)).
  { destruct (locate src); [done|exact Hin]. }
  set (fs2 := <[locate dst := File m0 data]> (<[locate dst := File m0 []]> fs))
    in *.
  assert (Hsrc2 : find fs2 src = inr (File m data)).
  { apply find_node in Hsrc as [Hname _]. unfold find.
    rewrite bool_decide_eq_false_2 by done.
    destruct (walk fs2 [] (locate src)) as [errno|n2] eqn:Hwalk.
    - unfold Stat, find in H.
      rewrite bool_decide_eq_false_2, Hwalk in H by done. done.
    - apply walk_node in Hwalk. simpl in Hwalk. unfold fs2 in Hwalk.
      rewrite !node_at_insert_ne, Hin in Hwalk by done. congruence. }
  unfold Stat in H. rewrite Hsrc2 in H. simpl in H.
  assert (Hdst2 : find fs2 dst = inr (File m0 data)).
  { unfold Chmod in H.
    destruct (find fs2 dst) as [errno|n2] eqn:Hfind.
    - by destruct (locate dst).
    - apply find_node in Hfind as [_ Hfind]. unfold fs2 in Hfind.
      rewrite node_at_insert_eq in Hfind by done. congruence. }
  rewrite (Chmod_file dst _ fs2 m0 data Hdst2) in H.
  injection H as <-. exists m, data. split; [done|]. split.
  - unfold fs2. by rewrite !lookup_insert_ne.
  - rewrite lookup_insert_eq. by rewrite land_perm_idem.
Qed.

Lemma CopyFile_copies_witness :
  exists m data,
    plain_fs !! locate "/src/a" = Some (File m data)
    /\ (CopyFile "/src/a" "/dst/b" plain_fs).1 !! locate "/src/a"
       = Some (File m data)
    /\ (CopyFile "/src/a" "/dst/b" plain_fs).1 !! locate "/dst/b"
       = Some (File (Z.land m ModePerm) data).
Proof.
  apply (CopyFile_copies "/src/a" "/dst/b" plain_fs).
  - exact plain_fs_link_free.
  - vm_compute. reflexivity.
  - vm_compute. discriminate.
Defined.



(** X14: [CopyFile] of a directory onto an existing regular file fails, but
    only after [os.Create] has truncated the file: the call returns an error
    and the destination has lost its contents. *)
Theorem CopyFile_directory_truncates (src dst : string) (fs : FS)
    (m md : Z) (data : list Z) :
  find fs src = inr (Dir m) ->
  find fs dst = inr (File md data) ->
  exists e,
    CopyFile src dst fs = (<[locate dst := File md []]> fs, Some e).
Proof.
  intros Hsrc Hdst.
  destruct (find_node _ _ _ Hsrc) as [_ Hsrc_node].
  destruct (find_file _ _ _ _ Hdst) as [Hne Hdst_file].
  assert (Hplaces : locate dst <> locate src).
  { intros Heq. rewrite <- Heq in Hsrc_node.
    destruct (locate dst); [done|]. simpl in Hsrc_node. congruence. }
  unfold CopyFile, Open. rewrite Hsrc.
  unfold Create. rewrite Hdst.
  unfold Copy. rewrite node_at_insert_ne, Hsrc_node by done.
  by eexists.
Qed.

Lemma CopyFile_directory_truncates_witness :
  exists e,
    CopyFile "/src" "/dst/a" plain_fs
    = (<[locate "/dst/a" := File 384 []]> plain_fs, Some e).
Proof.
  apply (CopyFile_directory_truncates "/src" "/dst/a" plain_fs 493 384 [1; 2; 3]).
  - vm_compute. reflexivity.
  - vm_compute. reflexivity.
Defined.

Lemma mirrored_keeps fuel src dst items fs fs' :
  mirrored fuel src dst items fs fs' -> keeps fs fs'.
Proof.
  induction 1 as [fs|item items fs fs1 fs2 _ Hstep _ IH
                 |item items final fs fs1 fs2 _ _ _ Hstep _ IH
                 |item items fs fs1 fs2 _ _ Hstep _ IH].
  - apply keeps_refl.
  - eapply keeps_trans; [eapply MirrorDir_keeps, Hstep|exact IH].
  - eapply keeps_trans; [eapply Symlink_keeps, Hstep|exact IH].
  - eapply keeps_trans; [eapply CopyFile_keeps, Hstep|exact IH].
Qed.

Lemma CopyFile_makes_dst src dst fs fs' :
  CopyFile src dst fs = (fs', None) -> is_Some (fs' !! locate dst).
Proof.
  intros H. unfold CopyFile in H.
  destruct (Open src fs) as [in_|e]; [|done].
  destruct (Create dst fs) as [fs1 [out|e]] eqn:HCreate; [|done].
  apply Create_ok in HCreate as (-> & Hne & m0 & ->).
  assert (H1 : is_Some ((<[locate dst := File m0 []]> fs) !! locate dst))
    by by rewrite lookup_insert_eq.
  destruct (Copy _ _ _) as [fs2 [e|]] eqn:HCopy; [done|].
  apply Copy_keeps in HCopy.
  destruct (Stat src fs2) as [s|e]; [|done].
  destruct (Chmod dst (Mode s) fs2) as [fs3 [e|]] eqn:HChmod; [done|].
  apply Chmod_keeps in HChmod. injection H as <-.
  by apply HChmod, HCopy.
Qed.

Lemma Symlink_makes_newname oldname newname fs fs' :
  Symlink_ oldname newname fs = (fs', None) ->
  fs' !! locate newname = Some (Symlink oldname).
Proof.
  unfold Symlink_. destruct (creatable fs newname); [done|].
  intros [= <-]. by rewrite lookup_insert_eq.
Qed.

Lemma mirrored_entries fuel src dst items fs fs' :
  mirrored fuel src dst items fs fs' ->
  forall item, item ∈ items -> IsDir item = false ->
    is_Some (fs' !! locate (Join dst (Name item))).
Proof.
  induction 1 as [fs|item items fs fs1 fs2 Hdir _ _ IH
                 |item items final fs fs1 fs2 _ _ _ Hstep Hrest IH
                 |item items fs fs1 fs2 _ _ Hstep Hrest IH];
    intros it Hin Hfile.
  - by apply elem_of_nil in Hin.
  - apply elem_of_cons in Hin as [->|Hin]; [congruence|by apply IH].
  - apply elem_of_cons in Hin as [->|Hin]; [|by apply IH].
    apply (mirrored_keeps _ _ _ _ _ _ Hrest).
    rewrite (Symlink_makes_newname _ _ _ _ Hstep). by eexists.
  - apply elem_of_cons in Hin as [->|Hin]; [|by apply IH].
    apply (mirrored_keeps _ _ _ _ _ _ Hrest).
    by eapply CopyFile_makes_dst.
Qed.

(** X15: after a [MirrorDir] that returned nil, every entry of the source
    directory that is not itself a directory (every file and every link that
    [ReadDir] listed) has an entry of its name in the destination. *)
Theorem MirrorDir_entries (fuel : nat) (src dst : string) (fs fs' : FS) :
  MirrorDir fuel src dst fs = Some (fs', None) ->
  exists s items,
    Stat (Clean src) fs = Ok s
    /\ ReadDir (Clean src) (MkdirAll (Clean dst) (Mode s) fs).1 = Ok items
    /\ forall item, item ∈ items -> IsDir item = false ->
         is_Some (fs' !! locate (Join (Clean dst) (Name item))).
Proof.
  intros H. destruct fuel as [|fuel]; [done|]. simpl in H.
  destruct (Stat (Clean src) fs) as [s|e] eqn:Hsrc; [|done].
  destruct (negb (IsDir s)); [done|].
  assert (Hloop : match ReadDir (Clean src)
                          (MkdirAll (Clean dst) (Mode s) fs).1 with
                  | Err err => False
                  | Ok items =>
                      for_range (mirrorItem (MirrorDir fuel) (Clean src)
                                   (Clean dst)) items
                        (MkdirAll (Clean dst) (Mode s) fs).1
                      = Some (fs', None)
                  end).
  { destruct (Stat (Clean dst) fs) as [sd|e]; simpl in H.
    - destruct (MkdirAll (Clean dst) (Mode s) fs) as [fs1 err1]. simpl.
      by destruct (ReadDir (Clean src) fs1).
    - destruct (IsNotExist e); simpl in H; [|done].
      destruct (MkdirAll (Clean dst) (Mode s) fs) as [fs1 err1]. simpl.
      by destruct (ReadDir (Clean src) fs1). }
  clear H.
  destruct (ReadDir (Clean src) (MkdirAll (Clean dst) (Mode s) fs).1)
    as [items|e] eqn:Hread; [|done].
  rename Hloop into H.
  exists s, items. split; [done|]. split; [done|].
  apply for_range_mirrored in H. by eapply mirrored_entries.
Qed.

Lemma MirrorDir_entries_witness :
  exists s items,
    Stat (Clean "/src") source_fs = Ok s
    /\ ReadDir (Clean "/src")
         (MkdirAll (Clean "/dst") (Mode s) source_fs).1 = Ok items
    /\ forall item, item ∈ items -> IsDir item = false ->
         is_Some (mirrored_fs !! locate (Join (Clean "/dst") (Name item))).
Proof.
  apply (MirrorDir_entries 2 "/src" "/dst" source_fs mirrored_fs).
  vm_compute. reflexivity.
Defined.

Lemma mkdir_down_file perm fs rest : forall cur m data,
  rest <> [] ->
  walk fs cur rest = inr (File m data) ->
  mkdir_down perm cur rest fs = (fs, Some ENOTDIR).
Proof.
  induction rest as [|e rest IH]; intros cur m data Hne Hwalk; [done|].
  simpl in *.
  destruct (node_at fs cur) as [[m0 data0|m0|target]|]; try done.
  destruct rest as [|e' rest].
  - apply (walk_node fs [] (cur ++ [e])) in Hwalk.
    rewrite app_nil_r in Hwalk.
    assert (Hfile : fs !! (cur ++ [e]) = Some (File m data))
      by (by destruct cur).
    by rewrite Hfile.
  - assert (Hdir : exists md, fs !! (cur ++ [e]) = Some (Dir md)).
    { simpl in Hwalk.
      destruct (node_at fs (cur ++ [e])) as [[m1 data1|m1|target]|] eqn:Hnode;
        try done.
      exists m1. by destruct cur. }
    destruct Hdir as [md Hdir]. rewrite Hdir. by eapply IH.
Qed.

Lemma IsDir_Dir name m : IsDir (mkFileInfo name (mode_of (Dir m))) = true.
Proof.
  unfold IsDir. simpl. apply negb_true_iff, Z.eqb_neq. intros Hzero.
  assert (Hbit : Z.testbit (Z.land (Z.lor ModeDir (Z.land m ModePerm)) ModeDir) 31
                 = true).
  { rewrite Z.land_spec, Z.lor_spec. reflexivity. }
  rewrite Hzero in Hbit. by rewrite Z.bits_0 in Hbit.
Qed.

(** X16: when the source is a directory without entries and the destination
    is an existing regular file, [MirrorDir] returns nil although nothing was
    mirrored: [os.MkdirAll] fails, its error is never read and the tree is
    what it was before the call. *)
Theorem MirrorDir_onto_file (fuel : nat) (src dst : string) (fs : FS)
    (m md : Z) (data : list Z) :
  find fs (Clean src) = inr (Dir m) ->
  ReadDir (Clean src) fs = Ok [] ->
  find fs (Clean dst) = inr (File md data) ->
  MirrorDir (S fuel) src dst fs = Some (fs, None)
  /\ MkdirAll (Clean dst) (Z.lor ModeDir (Z.land m ModePerm)) fs
     = (fs, Some (PathError "mkdir" (Clean dst) ENOTDIR)).
Proof.
  intros Hsrc Hread Hdst.
  assert (HMkdir : forall perm,
            MkdirAll (Clean dst) perm fs
            = (fs, Some (PathError "mkdir" (Clean dst) ENOTDIR))).
  { intros perm. unfold MkdirAll.
    destruct (find_node _ _ _ Hdst) as [Hname _].
    destruct (find_file _ _ _ _ Hdst) as [Hne _].
    rewrite bool_decide_eq_false_2 by done.
    unfold find in Hdst. rewrite bool_decide_eq_false_2 in Hdst by done.
    by rewrite (mkdir_down_file perm fs _ [] md data Hne Hdst). }
  split; [|apply HMkdir].
  simpl. unfold Stat at 1. rewrite Hsrc.
  rewrite IsDir_Dir. simpl.
  unfold Stat. rewrite Hdst. simpl.
  rewrite HMkdir, Hread. reflexivity.
Qed.

Lemma MirrorDir_onto_file_witness :
  let fs : FS := <[ ["src"] := Dir 493 ]> (<[ ["dst"] := File 420 [7] ]> ∅) in
  MirrorDir 1 "/src" "/dst" fs = Some (fs, None)
  /\ MkdirAll (Clean "/dst") (Z.lor ModeDir (Z.land 493 ModePerm)) fs
     = (fs, Some (PathError "mkdir" (Clean "/dst") ENOTDIR)).
Proof.
  apply (MirrorDir_onto_file 0 "/src" "/dst" _ 493 420 [7]);
    vm_compute; reflexivity.
Defined.

End FileMoreProps.


(** ** [MirrorDir] does not roll back *)

Module MirrorProps.
Import Go Filepath OS File FileProps FileMoreProps.







End MirrorProps.


(** ** Further properties of the Windows store *)

Module StoreMoreProps.
Import Go Store StoreProps.

(** The names of the certificate stores [List] goes through. *)
Definition stores : list string :=
  ["My"; "AuthRoot"; "Root"; "Trust"; "CA"; "Disallowed"].

(** [certmgr] fails for the store [name]. *)
Definition fails (w : World) (name : string) : Prop :=
  is_Some (snd (certmgr w name)).

#[local] Instance fails_dec w name : Decision (fails w name).
Proof. unfold fails. apply _. Defined.

Lemma list_store_fields w name :
  live (list_store w name) = live w
  /\ backupRecord (list_store w name) = backupRecord w
  /\ certmgr (list_store w name) = certmgr w
  /\ length (stdout (list_store w name))
     = (length (stdout w) + 2 + (if decide (fails w name) then 1 else 0))%nat.
Proof.
  unfold list_store.
  change (certmgr (print (name +:+ nl) w)) with (certmgr w).
  destruct (decide (fails w name)) as [Hf|Hf]; unfold fails in Hf;
    destruct (certmgr w name) as [b [e|]]; simpl in *;
    repeat split; rewrite ?length_app; simpl; try lia.
  - by destruct Hf.
  - destruct Hf. by eexists.
Qed.

Lemma list_stores_fields names : forall w,
  live (fold_left list_store names w) = live w
  /\ backupRecord (fold_left list_store names w) = backupRecord w
  /\ certmgr (fold_left list_store names w) = certmgr w
  /\ length (stdout (fold_left list_store names w))
     = (length (stdout w) + 2 * length names
        + length (filter (fails w) names))%nat.
Proof.
  induction names as [|name names IH]; intros w; simpl.
  - repeat split. lia.
  - destruct (list_store_fields w name) as (Hl & Hb & Hc & Hout).
    destruct (IH (list_store w name)) as (Hl' & Hb' & Hc' & Hout').
    rewrite Hl', Hb', Hc', Hout', Hl, Hb, Hc, Hout.
    repeat split.
    assert (Hsame : filter (fails (list_store w name)) names
                    = filter (fails w) names).
    { apply list_filter_iff. intros n. unfold fails. by rewrite Hc. }
    rewrite Hsame.
    destruct (decide (fails w name)) as [Hf|Hf].
    + rewrite filter_cons_True by done. simpl. lia.
    + rewrite filter_cons_False by done. lia.
Qed.

(** X17: [List] of the Windows store never returns a certificate and never
    returns an error, also when [certmgr] fails: a failure is only printed.
    It prints two lines for each of the six stores and one more for each
    store [certmgr] failed on, and leaves the system as it is. *)
Theorem List_prints_only (w : World) :
  snd (List windowsStore w) = ([], None)
  /\ live (fst (List windowsStore w)) = live w
  /\ backupRecord (fst (List windowsStore w)) = backupRecord w
  /\ length (stdout (fst (List windowsStore w)))
     = (length (stdout w) + 12 + length (filter (fails w) stores))%nat.
Proof.
  split; [reflexivity|].
  destruct (list_stores_fields stores w) as (Hl & Hb & _ & Hout).
  split; [exact Hl|]. split; [exact Hb|]. exact Hout.
Qed.

(** X18: no session on the Windows store, whatever calls it is made of,
    changes the certificates the system trusts or brings a backup record
    into being, and every call of it returns nil: [Backup], [Remove] and
    [Restore] do nothing at all. *)
Theorem session_changes_nothing (calls : list Call) (w : World) :
  live (fst (session windowsStore calls w)) = live w
  /\ backupRecord (fst (session windowsStore calls w)) = backupRecord w
  /\ snd (session windowsStore calls w) = replicate (length calls) None.
Proof.
  revert w. induction calls as [|c calls IH]; intros w; [done|].
  simpl.
  destruct (call windowsStore c w) as [w1 err] eqn:Hcall.
  assert (H1 : live w1 = live w /\ backupRecord w1 = backupRecord w
               /\ err = None).
  { destruct c; simpl in Hcall; try (by injection Hcall as <- <-).
    injection Hcall as <- <-.
    destruct (list_stores_fields stores w) as (Hl & Hb & _). done. }
  destruct H1 as (Hl & Hb & ->).
  destruct (IH w1) as (Hl' & Hb' & Herrs).
  destruct (session windowsStore calls w1) as [w2 errs]. simpl in *.
  rewrite Hl', Hb', Herrs. done.
Qed.

End StoreMoreProps.


(** ** Further properties of the confirmation server *)

Module ServerMoreProps.
Import Go Server ServerState.

Lemma getPort_value (raw : Z) : getPort raw = Some (raw mod 64512 + 1024).
Proof.
  unfold getPort, rand_Intn.
  change (int_sub (Z.shiftl 2 15) 1024) with 64512. simpl.
  pose proof (Z.mod_pos_bound raw 64512 ltac:(lia)) as Hr.
  unfold int_add, wrap.
  rewrite Z.mod_small by lia. f_equal. lia.
Qed.

(** X19: only the first [Register] counts.  Once a call of it has come back,
    every later call, whatever number the generator delivers, leaves the
    server, its address and the registered handlers as they are; the handler
    of [/done] is never registered a second time, so that a repeated
    [Register] does not panic. *)
Theorem Register_once (raw raw' : Z) (st st1 : state) :
  Register raw st = Some st1 ->
  Register raw' st1 = Some st1
  /\ Address st1 <> "".
Proof.
  unfold Register, Address.
  destruct (srv st) as [addr|] eqn:Hsrv.
  - intros [= <-]. by rewrite Hsrv.
  - rewrite getPort_value. simpl. unfold HandleFunc. simpl.
    case_bool_decide; [done|]. intros [= <-]. done.
Qed.

(** The state of a process that has not called [Register]. *)
Definition fresh_state : state := mkState None [].

Lemma Register_once_witness :
  Register 7 (mkState (Some "127.0.0.1:1066") ["/done"])
  = Some (mkState (Some "127.0.0.1:1066") ["/done"])
  /\ Address (mkState (Some "127.0.0.1:1066") ["/done"]) <> "".
Proof.
  apply (Register_once 42 7 fresh_state).
  vm_compute. reflexivity.
Defined.

(** X20: without a registered server [Address] is the empty string; the
    first [Register], when [/done] has no handler yet, does not panic, adds
    the handler of [/done] and makes [Address] the URL of the loopback
    interface with a port between 1024 and 65535. *)
Theorem Register_address (raw : Z) (st : state) :
  srv st = None -> "/done" ∉ patterns st ->
  Address st = ""
  /\ exists n st1,
       Register raw st = Some st1
       /\ 1024 <= n <= 65535
       /\ Address st1 = "http://127.0.0.1:" +:+ decimal n +:+ "/"
       /\ patterns st1 = "/done" :: patterns st.
Proof.
  intros Hsrv Hpat. unfold Address at 1. rewrite Hsrv. split; [done|].
  exists (raw mod 64512 + 1024).
  eexists. unfold Register. rewrite Hsrv, getPort_value. simpl.
  unfold HandleFunc. simpl. rewrite bool_decide_eq_false_2 by done.
  split; [reflexivity|].
  pose proof (Z.mod_pos_bound raw 64512 ltac:(lia)) as Hr.
  split; [lia|]. split; reflexivity.
Qed.

Lemma Register_address_witness :
  Address fresh_state = ""
  /\ exists n st1,
       Register 42 fresh_state = Some st1
       /\ 1024 <= n <= 65535
       /\ Address st1 = "http://127.0.0.1:" +:+ decimal n +:+ "/"
       /\ patterns st1 = "/done" :: patterns fresh_state.
Proof.
  apply (Register_address 42 fresh_state).
  - reflexivity.
  - apply not_elem_of_nil.
Defined.

End ServerMoreProps.


(** ** Properties of the container test harness *)

Module DockerProps.
Import Docker.

Lemma Split_cons (sep : ascii) (s : string) :
  exists p0 rest, Split sep s = p0 :: rest.
Proof.
  destruct s as [|c s]; simpl; [by eexists _, _|].
  destruct (Ascii.eqb c sep); [by eexists _, _|].
  destruct (Split sep s); by eexists _, _.
Qed.

Lemma Join_cons (e x : string) (xs : list string) (sep : string) :
  Join (e :: x :: xs) sep = e +:+ sep +:+ Join (x :: xs) sep.
Proof. reflexivity. Qed.

Lemma Join_Split (sep : ascii) (s : string) :
  Join (Split sep s) (String sep EmptyString) = s.
Proof.
  induction s as [|c s IH]; [done|]. simpl.
  destruct (Split_cons sep s) as (p0 & rest & Hs). rewrite Hs in *.
  destruct (Ascii.eqb c sep) eqn:Hc.
  - apply Ascii.eqb_eq in Hc as ->. rewrite Join_cons, IH. reflexivity.
  - destruct rest as [|x xs].
    + simpl in *. by rewrite IH.
    + rewrite Join_cons in *. rewrite <- IH. reflexivity.
Qed.

Section Harness.

Variable Command : string -> list string -> Cmd.

(** X21: [RunSplit] never panics, and it records one command whose name and
    arguments, joined by single spaces, are the statement as it was given
    (repeated spaces give empty arguments, none is lost). *)
Theorem RunSplit_words (stmt : string) (d : dockerfile) :
  exists cmd args,
    RunSplit Command stmt d = Some (Run Command cmd args d)
    /\ Join (cmd :: args) " " = stmt.
Proof.
  unfold RunSplit.
  destruct (Split_cons " " stmt) as (p0 & rest & Hs).
  exists p0, rest. rewrite Hs. split; [done|].
  rewrite <- Hs. apply Join_Split.
Qed.

Lemma CertManage_later args d :
  once d = true ->
  CertManage Command args d = Run Command "/bin/cert-manage" args d.
Proof. intros Honce. unfold CertManage. by rewrite Honce. Qed.

Lemma CertManage_all_later argss : forall d,
  once d = true ->
  commands (fold_left (fun d args => CertManage Command args d) argss d)
  = commands d ++ (Command "/bin/cert-manage" <$> argss).
Proof.
  induction argss as [|args argss IH]; intros d Honce; simpl.
  - by rewrite app_nil_r.
  - rewrite CertManage_later by done. rewrite IH by done.
    simpl. by rewrite <- app_assoc.
Qed.

(** X22: however often [CertManage] is called on a [dockerfile], the
    [chmod] of the binary is recorded once, before the first call of the
    binary; every call then records one command with its arguments. *)
Theorem CertManage_chmod_once (argss : list (list string)) (d : dockerfile) :
  once d = false -> argss <> [] ->
  commands (fold_left (fun d args => CertManage Command args d) argss d)
  = commands d
    ++ Command "chmod" ["+x"; "/bin/cert-manage"]
    :: (Command "/bin/cert-manage" <$> argss).
Proof.
  intros Honce Hne. destruct argss as [|args argss]; [done|].
  simpl. unfold CertManage at 2. rewrite Honce.
  rewrite CertManage_all_later by done. simpl.
  by rewrite <- !app_assoc.
Qed.

End Harness.

Lemma CertManage_chmod_once_witness :
  commands (fold_left (fun d args => CertManage mkCmd args d)
              [["-list"; "-count"]; ["-backup"]]
              (mkDockerfile "Dockerfile" [] "cert-manage:debian-1" false))
  = [] ++ mkCmd "chmod" ["+x"; "/bin/cert-manage"]
    :: (mkCmd "/bin/cert-manage" <$> [["-list"; "-count"]; ["-backup"]]).
Proof.
  apply (CertManage_chmod_once mkCmd [["-list"; "-count"]; ["-backup"]]
           (mkDockerfile "Dockerfile" [] "cert-manage:debian-1" false)).
  - reflexivity.
  - discriminate.
Defined.

End DockerProps.
